(** * Contact-form validation and portfolio modal of the portfolio site

    A shallow embedding of the two client-side scripts of the site,
    [form-validation.js] and [portfolio.js], and the properties their
    specification states about them.

    JavaScript strings are sequences of UTF-16 code units; the DOM is the
    explicit state the scripts read and write. *)

From Stdlib Require Import NArith String Ascii.
From Stdlib Require QArith.
From stdpp Require Import base option list gmap.

Set Default Proof Using "Type".

(** ** JavaScript strings *)

(** A string is the list of its UTF-16 code units. *)
Abbreviation jsstring := (list N).

(** An ASCII literal of the scripts, as a JavaScript string. *)
Definition js (s : string) : jsstring := N_of_ascii <$> list_ascii_of_string s.

Module Char.
Definition at_sign : N := 64.   (* '@' *)
Definition dot : N := 46.       (* '.' *)
Definition space : N := 32.     (* ' ' *)
End Char.

(** The code units ECMAScript calls WhiteSpace or LineTerminator: the ones
    the regular-expression escape [\s] matches and [String.prototype.trim]
    strips. *)
Definition isWhiteSpace (c : N) : bool :=
  (9 <=? c)%N && (c <=? 13)%N          (* TAB, LF, VT, FF, CR *)
  || (c =? 32)%N                       (* SPACE *)
  || (c =? 0xA0)%N                     (* NO-BREAK SPACE *)
  || (c =? 0x1680)%N                   (* OGHAM SPACE MARK *)
  || (0x2000 <=? c)%N && (c <=? 0x200A)%N  (* EN QUAD .. HAIR SPACE *)
  || (c =? 0x2028)%N || (c =? 0x2029)%N    (* LINE / PARAGRAPH SEPARATOR *)
  || (c =? 0x202F)%N || (c =? 0x205F)%N
  || (c =? 0x3000)%N
  || (c =? 0xFEFF)%N.                  (* ZERO WIDTH NO-BREAK SPACE *)

(** [String.prototype.trim] *)
Fixpoint trimStart (s : jsstring) : jsstring :=
  match s with
  | c :: s' => if isWhiteSpace c then trimStart s' else s
  | [] => []
  end.

Definition trimEnd (s : jsstring) : jsstring := reverse (trimStart (reverse s)).

Definition trim (s : jsstring) : jsstring := trimEnd (trimStart s).

(** ** Regular expressions

    The fragment of the pattern language [emailRegex] is written in:
    literal characters, character classes (possibly negated, with the
    [\s] escape), sequencing and repetition, and the two anchors. *)

Module RegExp.

Inductive class_atom :=
| ClassChar (c : N)      (* a literal code unit inside [...] *)
| ClassSpace.            (* \s inside [...] *)

Inductive pattern :=
| Fail                                             (* matches nothing *)
| Empty                                            (* matches the empty string *)
| Chr (c : N)                                      (* a literal, such as @ or \. *)
| Class (negated : bool) (atoms : list class_atom) (* [...] and [^...] *)
| Seq (p q : pattern)                              (* pq *)
| Alt (p q : pattern)                              (* p|q *)
| Star (p : pattern).                              (* p* *)

(** p+ *)
Definition Plus (p : pattern) : pattern := Seq p (Star p).

(** A regular expression: a pattern with its anchors, [^] in front and
    [$] at the end (no flags). *)
Record t := { anchor_start : bool; body : pattern; anchor_end : bool }.

Definition atom_has (c : N) (a : class_atom) : bool :=
  match a with
  | ClassChar c' => (c =? c')%N
  | ClassSpace => isWhiteSpace c
  end.

Definition class_has (negated : bool) (atoms : list class_atom) (c : N) : bool :=
  xorb negated (existsb (atom_has c) atoms).

(** Does the pattern match the empty string? *)
Fixpoint nullable (p : pattern) : bool :=
  match p with
  | Fail => false
  | Empty => true
  | Chr _ => false
  | Class _ _ => false
  | Seq p q => nullable p && nullable q
  | Alt p q => nullable p || nullable q
  | Star _ => true
  end.

(** What is left of the pattern once it has consumed the code unit [c]. *)
Fixpoint after (c : N) (p : pattern) : pattern :=
  match p with
  | Fail => Fail
  | Empty => Fail
  | Chr c' => if (c =? c')%N then Empty else Fail
  | Class negated atoms => if class_has negated atoms c then Empty else Fail
  | Seq p q =>
      if nullable p then Alt (Seq (after c p) q) (after c q)
      else Seq (after c p) q
  | Alt p q => Alt (after c p) (after c q)
  | Star p => Seq (after c p) (Star p)
  end.

(** The pattern matches exactly the whole of [s]. *)
Fixpoint matches (p : pattern) (s : jsstring) : bool :=
  match s with
  | [] => nullable p
  | c :: s' => matches (after c p) s'
  end.

(** [[^]]: any code unit. *)
Definition Any : pattern := Class true [].

(** The suffixes of a string, the positions a match can start at. *)
Fixpoint suffixes (s : jsstring) : list jsstring :=
  s :: match s with
       | [] => []
       | _ :: s' => suffixes s'
       end.

(** [RegExp.prototype.test]: is there a match somewhere in [s]?  An
    anchor pins the corresponding end of the match to that end of [s]. *)
Definition test (re : t) (s : jsstring) : bool :=
  let p := if anchor_end re then body re else Seq (body re) (Star Any) in
  existsb (matches p) (if anchor_start re then [s] else suffixes s).

(** The strings a pattern denotes. *)
Inductive denotes : pattern -> jsstring -> Prop :=
| D_Empty : denotes Empty []
| D_Chr c : denotes (Chr c) [c]
| D_Class negated atoms c :
    class_has negated atoms c = true -> denotes (Class negated atoms) [c]
| D_Seq p q s1 s2 :
    denotes p s1 -> denotes q s2 -> denotes (Seq p q) (s1 ++ s2)
| D_AltL p q s : denotes p s -> denotes (Alt p q) s
| D_AltR p q s : denotes q s -> denotes (Alt p q) s
| D_Star0 p : denotes (Star p) []
| D_StarS p s1 s2 :
    denotes p s1 -> denotes (Star p) s2 -> denotes (Star p) (s1 ++ s2).

End RegExp.

(** ** form-validation.js *)

(** [/^[^\s@]+@[^\s@]+\.[^\s@]+$/] *)
Definition emailRegex : RegExp.t :=
  let part := RegExp.Plus
                (RegExp.Class true [RegExp.ClassSpace; RegExp.ClassChar Char.at_sign]) in
  {| RegExp.anchor_start := true;
     RegExp.body :=
       RegExp.Seq part
         (RegExp.Seq (RegExp.Chr Char.at_sign)
            (RegExp.Seq part
               (RegExp.Seq (RegExp.Chr Char.dot) part)));
     RegExp.anchor_end := true |}.

Definition validateEmail (email : jsstring) : bool := RegExp.test emailRegex email.

(** [value.trim().length > 0] *)
Definition validateRequired (value : jsstring) : bool :=
  bool_decide (0 < length (trim value)).

(** *** The form's part of the DOM

    A form group ([.form-group]) is an object the fields refer to: the
    DOM maps the identity of each group to its current state.  A group has
    its class list and, as its message element, the first [.error-message]
    inside it; the groups are taken not to be nested, so that no two of
    them have the same message element. *)

Record FormGroup := {
  classList : gset jsstring;
  (* the text of the group's [.error-message] descendant; [None] when the
     group has none and [querySelector] answers null *)
  errorElement : option jsstring
}.

Abbreviation DOM := (gmap nat FormGroup).

(** The form controls the script deals with. *)
Inductive Control :=
| INPUT (type : jsstring)    (* <input>, with what its [type] property reads *)
| TEXTAREA.                  (* <textarea> *)

Record Field := {
  control : Control;
  name : jsstring;
  value : jsstring;
  required : bool;                (* hasAttribute('required') *)
  (* the identity of [closest('.form-group')]; a key the DOM does not hold
     stands for the null of a field outside every group *)
  closest_form_group : nat
}.

(** [field.type] *)
Definition type (field : Field) : jsstring :=
  match control field with
  | INPUT type => type
  | TEXTAREA => js "textarea"
  end.

(** A form, as [querySelectorAll] sees it: its controls in document order. *)
Record Form := { controls : list Field }.

(** A computation on the DOM that may throw (a [TypeError] on reading a
    property of null). *)
Definition Script (A : Type) : Type := DOM -> option (A * DOM).

#[export] Instance Script_ret : MRet Script := λ A x dom, Some (x, dom).
#[export] Instance Script_bind : MBind Script := λ A B k m dom,
  match m dom with
  | Some (x, dom') => k x dom'
  | None => None
  end.

(** Run [update] on the object [formGroup] refers to. *)
Definition on_group (formGroup : nat) (update : FormGroup -> FormGroup) : Script () :=
  λ dom, match dom !! formGroup with
         | Some g => Some ((), <[formGroup := update g]> dom)
         | None => None
         end.

Definition showError_on (message : jsstring) (g : FormGroup) : FormGroup :=
  {| classList := classList g ∪ {[ js "error" ]};
     errorElement := match errorElement g with
                     | Some _ => Some message
                     | None => None
                     end |}.

Definition clearError_on (g : FormGroup) : FormGroup :=
  {| classList := classList g ∖ {[ js "error" ]};
     errorElement := match errorElement g with
                     | Some _ => Some (js "")
                     | None => None
                     end |}.

Definition showError (formGroup : nat) (message : jsstring) : Script () :=
  on_group formGroup (showError_on message).

Definition clearError (formGroup : nat) : Script () :=
  on_group formGroup clearError_on.

Definition validateField (field : Field) : Script bool :=
  let formGroup := closest_form_group field in
  let value := value field in
  let fieldName := name field in
  clearError formGroup ;;
  if required field && negb (validateRequired value) then
    showError formGroup (js "This field is required") ;;
    mret false
  else if bool_decide (type field = js "email")
          && bool_decide (0 < length (trim value))
          && negb (validateEmail value) then
    showError formGroup (js "Please enter a valid email address") ;;
    mret false
  else
    mret true.

(** ['input[required], textarea[required], input[type="email"]'] *)
Definition selects (field : Field) : bool :=
  match control field with
  | INPUT type => required field || bool_decide (type = js "email")
  | TEXTAREA => required field
  end.

Definition querySelectorAll (form : Form) : list Field :=
  filter (λ field, selects field = true) (controls form).

(** [fields.forEach(field => ...)] with the variable [isValid] it assigns. *)
Fixpoint forEach_field (fields : list Field) (isValid : bool) : Script bool :=
  match fields with
  | [] => mret isValid
  | field :: rest =>
      ok ← validateField field;
      forEach_field rest (if negb ok then false else isValid)
  end.

Definition validateForm (form : Form) : Script bool :=
  let fields := querySelectorAll form in
  forEach_field fields true.

(** *** The listeners of the contact form *)

(** [field.addEventListener('blur', function() { validateField(this); })] *)
Definition field_blur (this : Field) : Script () :=
  validateField this ;; mret ().

(** [formGroup.classList.contains('error')] *)
Definition contains_error (formGroup : nat) : Script bool :=
  λ dom, match dom !! formGroup with
         | Some g => Some (bool_decide (js "error" ∈ classList g), dom)
         | None => None
         end.

(** [field.addEventListener('input', ...)] *)
Definition field_input (this : Field) : Script () :=
  let formGroup := closest_form_group this in
  contains_error formGroup ≫= λ shown : bool,
  if shown then clearError formGroup else mret ().

(** What the submit listener does besides writing to the form groups. *)
Inductive Effect :=
| alert (message : jsstring)
| reset                            (* this.reset() *)
| console_log (message : jsstring).

(** [formGroups.forEach(group => clearError(group))] *)
Fixpoint forEach_group (formGroups : list nat) : Script () :=
  match formGroups with
  | [] => mret ()
  | group :: rest => clearError group ;; forEach_group rest
  end.

(** [contactForm.addEventListener('submit', ...)]: [formGroups] is what
    [this.querySelectorAll('.form-group')] answers.  The listener always
    calls [preventDefault]; the rest is [None] when it threw. *)
Definition form_submit (this : Form) (formGroups : list nat) (dom : DOM)
  : bool * option (list Effect * DOM) :=
  (true,
   match validateForm this dom with
   | Some (true, dom) =>
       match forEach_group formGroups dom with
       | Some (_, dom) =>
           Some ([alert (js "Form submitted successfully! (This is a demo - no data was actually sent)");
                  reset], dom)
       | None => None
       end
   | Some (false, dom) => Some ([console_log (js "Form validation failed")], dom)
   | None => None
   end).





(** ** portfolio.js *)

Record PortfolioRecord := {
  image : jsstring;
  imageAlt : jsstring;
  title : jsstring;
  description : jsstring;
  detailedDescription : jsstring
}.

Definition portfolioData : gmap jsstring PortfolioRecord :=
  list_to_map [
    (js "Project One",
     {| image := js "images/project1.jpg";
        imageAlt := js "Screenshot of Project 1";
        title := js "Project One";
        description := js "A responsive web application built with modern technologies.";
        detailedDescription := js "This project showcases a fully responsive web application that adapts seamlessly to different screen sizes. Built using HTML5, CSS3, and JavaScript, it features smooth animations, intuitive navigation, and optimized performance. The application demonstrates best practices in web development including semantic HTML, accessibility features, and clean code architecture." |});
    (js "Project Two",
     {| image := js "images/project2.jpg";
        imageAlt := js "Screenshot of Project 2";
        title := js "Project Two";
        description := js "An interactive website featuring smooth animations and user-friendly design.";
        detailedDescription := js "An engaging interactive website that combines beautiful design with functional user experience. Features include scroll-triggered animations, dynamic content loading, and responsive layouts. The project emphasizes user engagement through thoughtful interactions and visual feedback, creating an immersive browsing experience." |});
    (js "Project Three",
     {| image := js "images/project3.jpg";
        imageAlt := js "Screenshot of Project 3";
        title := js "Project Three";
        description := js "A portfolio website showcasing creative work and design skills.";
        detailedDescription := js "A comprehensive portfolio website designed to showcase creative work and professional achievements. The site features a clean, modern design with emphasis on visual presentation. Includes project galleries, detailed case studies, and contact integration. Built with performance and accessibility in mind, ensuring fast load times and compatibility across all devices." |})
  ].

(** [portfolioData] is an object literal, so reading a property of it also
    finds what it inherits from [Object.prototype]. *)
Definition Object_prototype : list jsstring :=
  [ js "constructor"; js "hasOwnProperty"; js "isPrototypeOf";
    js "propertyIsEnumerable"; js "toLocaleString"; js "toString";
    js "valueOf"; js "__proto__"; js "__defineGetter__";
    js "__defineSetter__"; js "__lookupGetter__"; js "__lookupSetter__" ].

(** What [portfolioData[key]] evaluates to. *)
Inductive Property :=
| Own (record : PortfolioRecord)   (* one of the records of the literal *)
| Inherited                        (* a function or object of Object.prototype *)
| Undefined.

Definition get (key : jsstring) : Property :=
  match portfolioData !! key with
  | Some record => Own record
  | None => if bool_decide (key ∈ Object_prototype) then Inherited else Undefined
  end.

(** [if (projectData)] *)
Definition truthy (projectData : Property) : bool :=
  match projectData with
  | Own _ | Inherited => true
  | Undefined => false
  end.

(** [projectData.image] and the like: [None] is [undefined], which is what
    the inherited functions and objects answer for these names. *)
Definition member (select : PortfolioRecord -> jsstring) (projectData : Property)
  : option jsstring :=
  match projectData with
  | Own record => Some (select record)
  | Inherited | Undefined => None
  end.

(** Assigning to [src] and [alt] converts with ToString. *)
Definition toDOMString (v : option jsstring) : jsstring := default (js "undefined") v.

(** Assigning to [textContent] takes undefined as null, and null as "". *)
Definition toTextContent (v : option jsstring) : jsstring := default (js "") v.

Inductive Element :=
| ModalClose                 (* .modal-close *)
| PortfolioItem (i : nat)    (* the i-th .portfolio-item *)
| Elsewhere.                 (* the body or any other element *)

(** The part of the page [portfolio.js] reads and writes; [modalImage_src]
    is the value last assigned to [src] (the attribute, not the resolved
    URL). *)
Record Page := {
  modalImage_src : jsstring;
  modalImage_alt : jsstring;
  modalTitle_textContent : jsstring;
  modalDescription_textContent : jsstring;
  modalDetails_textContent : jsstring;
  modal_classList : gset jsstring;
  body_style_overflow : jsstring;
  activeElement : Element
}.

(** A [.portfolio-item]: the text of its [.portfolio-title] descendant,
    [None] when it has none and [querySelector] answers null. *)
Record Item := {
  portfolio_title : option jsstring
}.

Definition focus (e : Element) (page : Page) : Page :=
  {| modalImage_src := modalImage_src page;
     modalImage_alt := modalImage_alt page;
     modalTitle_textContent := modalTitle_textContent page;
     modalDescription_textContent := modalDescription_textContent page;
     modalDetails_textContent := modalDetails_textContent page;
     modal_classList := modal_classList page;
     body_style_overflow := body_style_overflow page;
     activeElement := e |}.

(** [None] is the [TypeError] of reading [textContent] of null. *)
Definition openPortfolioModal (item : Item) (page : Page) : option Page :=
  projectTitle ← portfolio_title item;
  let projectData := get projectTitle in
  if truthy projectData then
    Some (focus ModalClose
      {| modalImage_src := toDOMString (member image projectData);
         modalImage_alt := toDOMString (member imageAlt projectData);
         modalTitle_textContent := toTextContent (member title projectData);
         modalDescription_textContent := toTextContent (member description projectData);
         modalDetails_textContent := toTextContent (member detailedDescription projectData);
         modal_classList := modal_classList page ∪ {[ js "active" ]};
         body_style_overflow := js "hidden";
         activeElement := activeElement page |})
  else
    Some page.

Definition closeModal (page : Page) : Page :=
  let page' :=
    {| modalImage_src := modalImage_src page;
       modalImage_alt := modalImage_alt page;
       modalTitle_textContent := modalTitle_textContent page;
       modalDescription_textContent := modalDescription_textContent page;
       modalDetails_textContent := modalDetails_textContent page;
       modal_classList := modal_classList page ∖ {[ js "active" ]};
       body_style_overflow := js "";
       activeElement := activeElement page |} in
  (* document.querySelector('.portfolio-item:focus') *)
  match activeElement page' with
  | PortfolioItem i => focus (PortfolioItem i) page'
  | ModalClose | Elsewhere => page'
  end.

(** *** The listeners

    A listener answers whether it called [preventDefault] and the page it
    leaves, [None] when it threw. *)

(** [item.addEventListener('click', ...)] *)
Definition item_click (this : Item) (page : Page) : bool * option Page :=
  (true, openPortfolioModal this page).

(** [item.addEventListener('keydown', ...)] *)
Definition item_keydown (this : Item) (key : jsstring) (page : Page)
  : bool * option Page :=
  if bool_decide (key = js "Enter") || bool_decide (key = js " ") then
    (true, openPortfolioModal this page)
  else
    (false, Some page).

(** [modalClose.addEventListener('click', closeModal)] *)
Definition modalClose_click (page : Page) : Page := closeModal page.

(** [modal.addEventListener('click', ...)]: [target_is_modal] is
    [e.target === modal]. *)
Definition modal_click (target_is_modal : bool) (page : Page) : Page :=
  if target_is_modal then closeModal page else page.

(** [document.addEventListener('keydown', ...)] *)
Definition document_keydown (key : jsstring) (page : Page) : Page :=
  if bool_decide (key = js "Escape")
     && bool_decide (js "active" ∈ modal_classList page) then
    closeModal page
  else
    page.

(** *** What the user does to the page *)

Inductive PageEvent :=
| ClickItem (item : Item)                      (* a click on a portfolio entry *)
| KeydownItem (item : Item) (key : jsstring)   (* a key pressed with the entry in focus *)
| Keydown (key : jsstring)                     (* a key pressed with the focus elsewhere *)
| ClickClose                                   (* a click on .modal-close *)
| ClickModal (target_is_modal : bool)          (* a click on the backdrop, or inside the modal *)
| MoveFocus (e : Element).                     (* the focus is moved, no listener runs *)

(** The page the listeners of an event leave.  A listener of an entry that
    throws has not written to the page yet, and leaves it as it found it;
    a keydown on an entry goes on to the document, and a click on
    .modal-close to the modal, of which it is not the target. *)
Definition page_listeners (e : PageEvent) (page : Page) : Page :=
  match e with
  | ClickItem item => default page (item_click item page).2
  | KeydownItem item key =>
      document_keydown key (default page (item_keydown item key page).2)
  | Keydown key => document_keydown key page
  | ClickClose => modal_click false (modalClose_click page)
  | ClickModal target_is_modal => modal_click target_is_modal page
  | MoveFocus e => focus e page
  end.

(** Scrolling is suppressed exactly when the overlay is active. *)
Definition scroll_lock_matches (page : Page) : Prop :=
  body_style_overflow page = js "hidden" ↔ js "active" ∈ modal_classList page.

(** ** navigation.js *)

(** *** The mobile menu

    [navToggle] is [None] when the page has no [.nav-toggle], and otherwise
    holds the toggle's [aria-expanded] attribute; [navMenu] is the class
    list of the [.nav-menu], [None] when the page has none. *)
Record Nav := {
  navToggle : option (option jsstring);
  navMenu : option (gset jsstring)
}.

(** [navToggle.addEventListener('click', ...)]; [None] is the [TypeError] of
    reading [classList] of null. *)
Definition navToggle_click (nav : Nav) : option Nav :=
  if bool_decide (navToggle nav = None) then Some nav else   (* if (navToggle) *)
  classes ← navMenu nav;
  (* navMenu.classList.toggle('active') *)
  let classes :=
    if bool_decide (js "active" ∈ classes) then classes ∖ {[ js "active" ]}
    else classes ∪ {[ js "active" ]} in
  let isExpanded := bool_decide (js "active" ∈ classes) in
  Some {| navToggle := Some (Some (js (if isExpanded then "true" else "false")));
          navMenu := Some classes |}.

(** The first click listener of a [.nav-link]. *)
Definition navLink_click (nav : Nav) : option Nav :=
  classes ← navMenu nav;
  Some {| navToggle := match navToggle nav with
                       | Some _ => Some (Some (js "false"))
                       | None => None
                       end;
          navMenu := Some (classes ∖ {[ js "active" ]}) |}.

Inductive NavEvent :=
| ClickToggle      (* a click on .nav-toggle: the page has one *)
| ClickLink.       (* a click on a .nav-link *)

Definition nav_listener (e : NavEvent) (nav : Nav) : option Nav :=
  match e with
  | ClickToggle => navToggle_click nav
  | ClickLink => navLink_click nav
  end.

(** *** The highlight of the section in view *)

(** What [document.querySelector(`.nav-link[href="#${sectionId}"]`)] comes
    to for a section: it answers a link (its position among [navLinks]) or
    null, or, when the id spliced into the selector breaks it (a double
    quote in the id), it throws a [SyntaxError]. *)
Inductive Query :=
| Answers (link : option nat)
| SyntaxError.

(** A [section[id]]: its place on the page and the outcome of the query
    for its link. *)
Record NavSection := {
  offsetTop : Z;
  offsetHeight : Z;
  activeLink : Query
}.

(** [navLinks.forEach(link => link.classList.remove('active'))], on the
    class lists of the links. *)
Definition remove_active (navLinks : list (gset jsstring)) : list (gset jsstring) :=
  (λ classes, classes ∖ {[ js "active" ]}) <$> navLinks.

(** [if (link) link.classList.add('active')] *)
Definition add_active (link : option nat) (navLinks : list (gset jsstring))
  : list (gset jsstring) :=
  match link with
  | Some i => alter (λ classes, classes ∪ {[ js "active" ]}) i navLinks
  | None => navLinks
  end.

(** The body of [sections.forEach(section => ...)]; [None] when the query
    throws.  [scrollPosition] is a number that need not be whole; the
    offsets are whole numbers. *)
Definition highlight_section (scrollPosition : QArith_base.Q) (navbarHeight : Z)
    (navLinks : list (gset jsstring)) (section : NavSection)
  : option (list (gset jsstring)) :=
  let sectionTop := (offsetTop section - navbarHeight - 100)%Z in
  let sectionBottom := (sectionTop + offsetHeight section)%Z in
  if QArith_base.Qle_bool (QArith_base.inject_Z sectionTop) scrollPosition
     && negb (QArith_base.Qle_bool (QArith_base.inject_Z sectionBottom) scrollPosition)
  then
    let navLinks := remove_active navLinks in
    match activeLink section with
    | Answers link => Some (add_active link navLinks)
    | SyntaxError => None
    end
  else Some navLinks.

(** [sections.forEach(section => ...)]: a throw ends the loop. *)
Fixpoint forEach_section (scrollPosition : QArith_base.Q) (navbarHeight : Z)
    (sections : list NavSection) (navLinks : list (gset jsstring))
  : option (list (gset jsstring)) :=
  match sections with
  | [] => Some navLinks
  | section :: rest =>
      navLinks ← highlight_section scrollPosition navbarHeight navLinks section;
      forEach_section scrollPosition navbarHeight rest navLinks
  end.

(** [highlightActiveSection], on what it reads: [window.scrollY], the
    height of the [.navbar] ([None] when there is none, and reading its
    height throws), the sections, and what the query for the home link
    answers (its selector is a constant, it does not throw).  [None] when
    it throws. *)
Definition highlightActiveSection (scrollY : QArith_base.Q) (navbar : option Z)
    (sections : list NavSection) (homeLink : option nat)
    (navLinks : list (gset jsstring)) : option (list (gset jsstring)) :=
  let scrollPosition := scrollY in
  navbarHeight ← navbar;
  navLinks ← forEach_section scrollPosition navbarHeight sections navLinks;
  if negb (QArith_base.Qle_bool (QArith_base.inject_Z 100) scrollPosition) then
    Some (add_active homeLink (remove_active navLinks))
  else
    Some navLinks.

(** How many of the links are marked active. *)
Definition active_links (navLinks : list (gset jsstring)) : nat :=
  length (filter (λ classes, js "active" ∈ classes) navLinks).

(** ** The vocabulary of the specification *)

(** A string with no whitespace and no '@' in it. *)
Definition plain (s : jsstring) : Prop :=
  ∀ c, c ∈ s → isWhiteSpace c = false ∧ c ≠ Char.at_sign.

(** How many times a code unit occurs in a string. *)
Definition occurrences (c : N) (s : jsstring) : nat :=
  length (filter (λ c', c' = c) s).

(** Blank: empty, or made of whitespace only. *)
Definition blank (s : jsstring) : Prop :=
  ∀ c, c ∈ s → isWhiteSpace c = true.

#[export] Instance plain_dec (s : jsstring) : Decision (plain s).
Proof.
  refine (cast_if (decide (Forall (λ c, isWhiteSpace c = false ∧ c ≠ Char.at_sign) s)));
    unfold plain; rewrite Forall_forall in *; done.
Defined.

#[export] Instance blank_dec (s : jsstring) : Decision (blank s).
Proof.
  refine (cast_if (decide (Forall (λ c, isWhiteSpace c = true) s)));
    unfold blank; rewrite Forall_forall in *; done.
Defined.

(** What one run of [validateField] comes to, in closed form: the value
    it returns and what it makes of the field's group (see
    [validateField_run]). *)
Definition fails_required (field : Field) : bool :=
  required field && negb (validateRequired (value field)).

Definition fails_email (field : Field) : bool :=
  bool_decide (type field = js "email")
  && bool_decide (0 < length (trim (value field)))
  && negb (validateEmail (value field)).

Definition verdict (field : Field) : bool :=
  negb (fails_required field) && negb (fails_email field).

Definition settle (field : Field) (g : FormGroup) : FormGroup :=
  if fails_required field then
    showError_on (js "This field is required") (clearError_on g)
  else if fails_email field then
    showError_on (js "Please enter a valid email address") (clearError_on g)
  else clearError_on g.

(** The fields [validateForm] is about: a required field or an
    email-typed field of the form. *)
Definition checked (form : Form) (field : Field) : Prop :=
  field ∈ controls form ∧ (required field = true ∨ type field = js "email").

(** The DOM a run of [validateField] leaves, whatever it returns (and
    the DOM as it was, had it thrown). *)
Definition after_validateField (dom : DOM) (field : Field) : DOM :=
  from_option snd dom (validateField field dom).

(** The contact form of the page as the specification fills it in: a
    name, an email address and a message, all three required, each in a
    group of its own. *)
Definition contact_form (name_value email_value message_value : jsstring) : Form :=
  {| controls :=
       [ {| control := INPUT (js "text"); name := js "name";
            value := name_value; required := true; closest_form_group := 0 |};
         {| control := INPUT (js "email"); name := js "email";
            value := email_value; required := true; closest_form_group := 1 |};
         {| control := TEXTAREA; name := js "message";
            value := message_value; required := true; closest_form_group := 2 |} ] |}.

Definition pristine_group : FormGroup :=
  {| classList := ∅; errorElement := Some (js "") |}.

Definition contact_dom : DOM :=
  {[ 0 := pristine_group; 1 := pristine_group; 2 := pristine_group ]}.

(** The page before any entry has been opened. *)
Definition closed_page : Page :=
  {| modalImage_src := js "";
     modalImage_alt := js "";
     modalTitle_textContent := js "";
     modalDescription_textContent := js "";
     modalDetails_textContent := js "";
     modal_classList := ∅;
     body_style_overflow := js "";
     activeElement := Elsewhere |}.


(** The last of the fields that is in the group [i]. *)
Definition last_in_group (i : nat) (fields : list Field) : option Field :=
  last (filter (λ field, closest_form_group field = i) fields).

(** A form whose two required inputs sit in one group. *)
Definition crowded_form (first_value last_value : jsstring) : Form :=
  {| controls :=
       [ {| control := INPUT (js "text"); name := js "first";
            value := first_value; required := true; closest_form_group := 0 |};
         {| control := INPUT (js "text"); name := js "last";
            value := last_value; required := true; closest_form_group := 0 |} ] |}.

(** * Properties *)

(** ** The matcher decides the strings a pattern denotes *)

Section RegExpFacts.
Import RegExp.

Lemma nullable_denotes p : nullable p = true ↔ denotes p [].
Proof.
  split.
  - induction p as [| | |?|p IHp q IHq|p IHp q IHq|p IHp]; simpl; intros Hn;
      try discriminate.
    + constructor.
    + apply andb_true_iff in Hn as [Hp Hq].
      apply (D_Seq p q [] []); auto.
    + apply orb_true_iff in Hn as [Hp | Hq].
      * apply D_AltL; auto.
      * apply D_AltR; auto.
    + constructor.
  - intros H. remember [] as w eqn:Ew.
    induction H as [| | |p q s1 s2 _ IH1 _ IH2|p q s _ IH|p q s _ IH| |p s1 s2 _ _ _ _];
      simpl; try discriminate; auto.
    + apply app_eq_nil in Ew as [-> ->].
      rewrite IH1, IH2; auto.
    + rewrite IH; auto.
    + rewrite IH; auto using orb_true_r.
Qed.

Lemma after_sound c p s : denotes (after c p) s → denotes p (c :: s).
Proof.
  revert s.
  induction p as [| |c'|negated atoms|p IHp q IHq|p IHp q IHq|p IHp];
    simpl; intros s H.
  - inversion H.
  - inversion H.
  - destruct (N.eqb_spec c c') as [->|]; inversion H; subst. constructor.
  - destruct (class_has negated atoms c) eqn:Hc; inversion H; subst.
    constructor; auto.
  - destruct (nullable p) eqn:Hn.
    + inversion H as [| | | | ? ? ? H1 | ? ? ? H2 | |]; subst.
      * inversion H1 as [| | |? ? s1 s2 Hp Hq| | | |]; subst.
        apply (D_Seq p q (c :: s1) s2); auto.
      * apply (D_Seq p q [] (c :: s)); auto.
        apply nullable_denotes; auto.
    + inversion H as [| | |? ? s1 s2 Hp Hq| | | |]; subst.
      apply (D_Seq p q (c :: s1) s2); auto.
  - inversion H; subst; [apply D_AltL | apply D_AltR]; auto.
  - inversion H as [| | |? ? s1 s2 Hp Hq| | | |]; subst.
    apply (D_StarS p (c :: s1) s2); auto.
Qed.

Lemma after_complete c p s : denotes p (c :: s) → denotes (after c p) s.
Proof.
  intros H. remember (c :: s) as w eqn:Ew. revert s Ew.
  induction H as [|c'|negated atoms c' Hc|p q s1 s2 H1 IH1 H2 IH2
                  |p q w H IH|p q w H IH| |p s1 s2 H1 IH1 H2 IH2];
    intros s Ew; simpl.
  - discriminate.
  - injection Ew as -> <-. rewrite N.eqb_refl. constructor.
  - injection Ew as -> <-. rewrite Hc. constructor.
  - destruct s1 as [|c1 s1]; simpl in Ew.
    + apply nullable_denotes in H1 as ->.
      apply D_AltR; auto.
    + injection Ew as -> <-.
      destruct (nullable p).
      * apply D_AltL, D_Seq; auto.
      * apply D_Seq; auto.
  - apply D_AltL; auto.
  - apply D_AltR; auto.
  - discriminate.
  - destruct s1 as [|c1 s1]; simpl in Ew.
    + apply (IH2 s Ew).
    + injection Ew as -> <-. apply D_Seq; auto.
Qed.

Lemma matches_denotes p s : matches p s = true ↔ denotes p s.
Proof.
  revert p. induction s as [|c s IH]; intros p; simpl.
  - apply nullable_denotes.
  - rewrite IH. split; [apply after_sound | apply after_complete].
Qed.

(** With both anchors, [test] asks for a match of the whole string. *)
Lemma test_anchored p s :
  test {| anchor_start := true; body := p; anchor_end := true |} s = true
  ↔ denotes p s.
Proof.
  unfold test; simpl. rewrite orb_false_r. apply matches_denotes.
Qed.

Lemma denotes_star_class negated atoms s :
  denotes (Star (Class negated atoms)) s
  ↔ Forall (λ c, class_has negated atoms c = true) s.
Proof.
  split.
  - intros H. remember (Star (Class negated atoms)) as p eqn:Ep.
    induction H as [| | | | | | |p s1 s2 H1 _ _ IH2]; try discriminate.
    + constructor.
    + injection Ep as ->. apply Forall_app. split; auto.
      inversion H1; subst. repeat constructor; auto.
  - induction 1 as [|c s Hc _ IH].
    + constructor.
    + apply (D_StarS _ [c] s); auto. constructor; auto.
Qed.

Lemma denotes_plus_class negated atoms s :
  denotes (Plus (Class negated atoms)) s
  ↔ s ≠ [] ∧ Forall (λ c, class_has negated atoms c = true) s.
Proof.
  unfold Plus. split.
  - intros H. inversion H as [| | |? ? s1 s2 H1 H2| | | |]; subst.
    inversion H1; subst. apply denotes_star_class in H2.
    split; [discriminate | constructor; auto].
  - intros [Hne Hall]. destruct Hall as [|c s Hc Hs]; [done|].
    apply (D_Seq _ _ [c] s); [constructor; auto | apply denotes_star_class; auto].
Qed.

Lemma denotes_seq p q s :
  denotes (Seq p q) s ↔ ∃ s1 s2, s = s1 ++ s2 ∧ denotes p s1 ∧ denotes q s2.
Proof.
  split.
  - intros H. inversion H; subst. eauto.
  - intros (s1 & s2 & -> & H1 & H2). constructor; auto.
Qed.

Lemma denotes_chr c s : denotes (Chr c) s ↔ s = [c].
Proof.
  split.
  - intros H. inversion H; auto.
  - intros ->. constructor.
Qed.

End RegExpFacts.

(** ** validateEmail *)

Lemma part_class c :
  RegExp.class_has true [RegExp.ClassSpace; RegExp.ClassChar Char.at_sign] c = true
  ↔ isWhiteSpace c = false ∧ c ≠ Char.at_sign.
Proof.
  unfold RegExp.class_has; simpl. rewrite orb_false_r.
  destruct (isWhiteSpace c); simpl.
  - split; [discriminate | intros [? _]; discriminate].
  - destruct (N.eqb_spec c Char.at_sign); simpl; split; auto.
    intros [_ ?]; contradiction.
Qed.

Lemma part_denotes s :
  RegExp.denotes
    (RegExp.Plus (RegExp.Class true [RegExp.ClassSpace; RegExp.ClassChar Char.at_sign])) s
  ↔ s ≠ [] ∧ plain s.
Proof.
  rewrite denotes_plus_class, Forall_forall. unfold plain.
  split; intros [Hne H]; (split; [done|]); intros c Hc; apply part_class; auto.
Qed.

(** The strings [emailRegex] accepts. *)
Lemma validateEmail_true s :
  validateEmail s = true
  ↔ ∃ l d t, s = l ++ [Char.at_sign] ++ d ++ [Char.dot] ++ t
             ∧ (l ≠ [] ∧ plain l) ∧ (d ≠ [] ∧ plain d) ∧ (t ≠ [] ∧ plain t).
Proof.
  unfold validateEmail, emailRegex. rewrite test_anchored. split.
  - intros H.
    apply denotes_seq in H as (l & r1 & -> & Hl & H).
    apply denotes_seq in H as (a & r2 & -> & Ha & H).
    apply denotes_seq in H as (d & r3 & -> & Hd & H).
    apply denotes_seq in H as (o & t & -> & Ho & Ht).
    apply denotes_chr in Ha as ->. apply denotes_chr in Ho as ->.
    exists l, d, t. rewrite <- !part_denotes. auto.
  - intros (l & d & t & -> & Hl & Hd & Ht).
    rewrite <- part_denotes in Hl, Hd, Ht.
    repeat (apply RegExp.D_Seq; auto); constructor.
Qed.

Lemma plain_no_at s : plain s → Char.at_sign ∉ s.
Proof. intros H Hin. destruct (H _ Hin) as [_ Hne]. auto. Qed.

Lemma plain_occurrences s : plain s → occurrences Char.at_sign s = 0.
Proof.
  intros H. unfold occurrences.
  induction s as [|c s IH]; [done|].
  rewrite filter_cons. destruct (decide (c = Char.at_sign)) as [->|].
  - destruct (H Char.at_sign) as [_ Hne]; [left | done].
  - apply IH. intros c' Hc'. apply H. right. done.
Qed.

Lemma occurrences_app c s1 s2 :
  occurrences c (s1 ++ s2) = occurrences c s1 + occurrences c s2.
Proof. unfold occurrences. rewrite filter_app, length_app. done. Qed.

Lemma occurrences_zero c s : occurrences c s = 0 ↔ c ∉ s.
Proof.
  unfold occurrences. split.
  - intros H Hin.
    assert (c ∈ filter (λ c', c' = c) s) as Hf by (apply list_elem_of_filter; auto).
    destruct (filter (λ c', c' = c) s); [inversion Hf | discriminate].
  - intros Hn. induction s as [|c' s IH]; [done|].
    rewrite filter_cons. destruct (decide (c' = c)) as [->|].
    + exfalso. apply Hn. left.
    + apply IH. intros ?. apply Hn. right. done.
Qed.

(** A string splits in only one way around a separator that occurs on
    neither side. *)
Lemma split_unique (x : N) (a b l r : jsstring) :
  a ++ x :: b = l ++ x :: r → x ∉ a → x ∉ l → a = l ∧ b = r.
Proof.
  revert l. induction a as [|c a IH]; intros [|c' l] E Ha Hl; simpl in E.
  - injection E as ->. done.
  - injection E as <- _. exfalso. apply Hl. left.
  - injection E as -> _. exfalso. apply Ha. left.
  - injection E as -> E.
    destruct (IH l E) as [-> ->]; [| |done].
    + intros ?. apply Ha. right. done.
    + intros ?. apply Hl. right. done.
Qed.

(** An accepted string has exactly one '@', no whitespace, and a '.'
    after the '@'. *)
Lemma validateEmail_true_inv s :
  validateEmail s = true →
  occurrences Char.at_sign s = 1
  ∧ (∀ c, c ∈ s → isWhiteSpace c = false)
  ∧ (∀ a b, s = a ++ [Char.at_sign] ++ b → Char.dot ∈ b).
Proof.
  intros H. apply validateEmail_true in H
    as (l & d & t & -> & [_ Hl] & [_ Hd] & [_ Ht]).
  assert (occurrences Char.at_sign (l ++ [Char.at_sign] ++ d ++ [Char.dot] ++ t) = 1)
    as Hocc.
  { rewrite !occurrences_app.
    rewrite (plain_occurrences l), (plain_occurrences d), (plain_occurrences t) by done.
    reflexivity. }
  split; [done|]. split.
  - intros c Hc. rewrite !elem_of_app, !list_elem_of_singleton in Hc.
    destruct Hc as [Hc|[->|[Hc|[->|Hc]]]]; try reflexivity.
    + apply (Hl c Hc).
    + apply (Hd c Hc).
    + apply (Ht c Hc).
  - intros a b E.
    assert (Char.at_sign ∉ a) as Ha.
    { apply occurrences_zero. rewrite E in Hocc.
      rewrite !occurrences_app in Hocc.
      change (occurrences Char.at_sign [Char.at_sign]) with 1 in Hocc. lia. }
    symmetry in E. simpl in E.
    apply split_unique in E as [_ ->]; auto using plain_no_at.
    apply elem_of_app. right. left.
Qed.

(** C1.  Every string [local@domain.tld] whose three parts are non-empty and
    hold neither whitespace nor '@' passes [validateEmail]; a string with no
    '@', with two or more '@', with a whitespace character, or with no '.'
    after the '@' fails it. *)
Theorem validateEmail_shape :
  (∀ local domain tld : jsstring,
      local ≠ [] → domain ≠ [] → tld ≠ [] →
      plain local → plain domain → plain tld →
      validateEmail (local ++ [Char.at_sign] ++ domain ++ [Char.dot] ++ tld) = true)
  ∧ (∀ s : jsstring, Char.at_sign ∉ s → validateEmail s = false)
  ∧ (∀ s : jsstring, 2 ≤ occurrences Char.at_sign s → validateEmail s = false)
  ∧ (∀ (s : jsstring) (c : N),
        c ∈ s → isWhiteSpace c = true → validateEmail s = false)
  ∧ (∀ a b : jsstring,
        Char.dot ∉ b → validateEmail (a ++ [Char.at_sign] ++ b) = false).
Proof.
  split; [|split; [|split; [|split]]].
  - intros l d t ? ? ? ? ? ?. apply validateEmail_true. exists l, d, t. auto.
  - intros s Hno. apply not_true_is_false. intros H.
    apply validateEmail_true_inv in H as (Hocc & _ & _).
    apply occurrences_zero in Hno. lia.
  - intros s Htwo. apply not_true_is_false. intros H.
    apply validateEmail_true_inv in H as (Hocc & _ & _). lia.
  - intros s c Hc Hws. apply not_true_is_false. intros H.
    apply validateEmail_true_inv in H as (_ & Hnows & _).
    rewrite (Hnows c Hc) in Hws. discriminate.
  - intros a b Hb. apply not_true_is_false. intros H.
    apply validateEmail_true_inv in H as (_ & _ & Hdot).
    apply Hb, (Hdot a b). reflexivity.
Qed.

Lemma validateEmail_shape_witness :
  validateEmail (js "alice" ++ [Char.at_sign] ++ js "example" ++ [Char.dot] ++ js "com")
  = true
  ∧ validateEmail (js "alice.example.com") = false
  ∧ validateEmail (js "alice@home@example.com") = false
  ∧ validateEmail (js "alice smith@example.com") = false
  ∧ validateEmail (js "alice" ++ [Char.at_sign] ++ js "example") = false.
Proof.
  destruct validateEmail_shape as (Hform & Hnone & Htwo & Hspace & Hdot).
  split; [|split; [|split; [|split]]].
  - apply Hform; try discriminate; apply (bool_decide_unpack _); vm_compute; exact I.
  - apply Hnone. apply (bool_decide_unpack _). vm_compute. exact I.
  - apply Htwo. vm_compute. lia.
  - apply (Hspace _ Char.space).
    + apply (bool_decide_unpack _). vm_compute. exact I.
    + reflexivity.
  - apply Hdot. apply (bool_decide_unpack _). vm_compute. exact I.
Defined.

(** ** validateRequired *)

Lemma trimStart_nil s : trimStart s = [] ↔ blank s.
Proof.
  unfold blank. induction s as [|c s IH]; simpl.
  - split; [intros _ c Hc; inversion Hc | done].
  - destruct (isWhiteSpace c) eqn:Hc.
    + rewrite IH. split.
      * intros H c' Hc'. apply elem_of_cons in Hc' as [->|Hc']; auto.
      * intros H c' Hc'. apply H. right. done.
    + split; [discriminate|].
      intros H. rewrite (H c) in Hc; [discriminate | left].
Qed.

Lemma blank_trimStart s : blank (trimStart s) ↔ blank s.
Proof.
  induction s as [|c s IH]; simpl; [done|].
  destruct (isWhiteSpace c) eqn:Hc; [|done].
  rewrite IH. unfold blank. split.
  - intros H c' Hc'. apply elem_of_cons in Hc' as [->|Hc']; auto.
  - intros H c' Hc'. apply H. right. done.
Qed.

Lemma blank_reverse s : blank (reverse s) ↔ blank s.
Proof.
  unfold blank. split; intros H c Hc; apply H.
  - rewrite elem_of_reverse. exact Hc.
  - rewrite elem_of_reverse in Hc. exact Hc.
Qed.

Lemma trim_nil s : trim s = [] ↔ blank s.
Proof.
  unfold trim, trimEnd.
  rewrite <- (blank_trimStart s), <- (blank_reverse (trimStart s)), <- trimStart_nil.
  split.
  - intros H. apply (f_equal reverse) in H. rewrite reverse_involutive in H. done.
  - intros ->. done.
Qed.

Lemma validateRequired_false s : validateRequired s = false ↔ blank s.
Proof.
  unfold validateRequired. rewrite <- trim_nil, bool_decide_eq_false.
  destruct (trim s); simpl; split; intros; try done; lia.
Qed.

Lemma trim_length_blank s : bool_decide (0 < length (trim s)) = false ↔ blank s.
Proof. apply validateRequired_false. Qed.

(** ** validateField *)

Lemma on_group_run formGroup update (dom : DOM) g :
  dom !! formGroup = Some g →
  on_group formGroup update dom = Some ((), <[formGroup := update g]> dom).
Proof. unfold on_group. intros ->. done. Qed.

(** On a field that has a group, [validateField] returns, and what it
    returns and leaves is [verdict] and [settle]. *)
Lemma validateField_run field (dom : DOM) g :
  dom !! closest_form_group field = Some g →
  validateField field dom
  = Some (verdict field, <[closest_form_group field := settle field g]> dom).
Proof.
  intros Hg. unfold validateField, verdict, settle.
  fold (fails_required field). fold (fails_email field).
  unfold mbind, Script_bind, clearError.
  rewrite (on_group_run _ _ _ _ Hg).
  destruct (fails_required field); [|destruct (fails_email field)]; simpl.
  - unfold mbind, Script_bind, showError.
    erewrite on_group_run by apply lookup_insert_eq.
    rewrite insert_insert_eq. done.
  - unfold mbind, Script_bind, showError.
    erewrite on_group_run by apply lookup_insert_eq.
    rewrite insert_insert_eq. done.
  - done.
Qed.

(** A field outside every group makes [validateField] throw. *)
Lemma validateField_throws field (dom : DOM) :
  dom !! closest_form_group field = None → validateField field dom = None.
Proof.
  intros Hg. unfold validateField, mbind, Script_bind, clearError, on_group.
  rewrite Hg. done.
Qed.

Lemma error_in_showError message g : js "error" ∈ classList (showError_on message g).
Proof. simpl. apply elem_of_union. right. apply elem_of_singleton. done. Qed.

Lemma error_not_in_clearError g : js "error" ∉ classList (clearError_on g).
Proof.
  simpl. intros [_ Hout]%elem_of_difference.
  apply Hout, elem_of_singleton. done.
Qed.

Lemma errorElement_shown message g shown :
  errorElement g = Some shown →
  errorElement (showError_on message (clearError_on g)) = Some message.
Proof. simpl. intros ->. done. Qed.

Lemma errorElement_cleared g shown :
  errorElement g = Some shown → errorElement (clearError_on g) = Some (js "").
Proof. simpl. intros ->. done. Qed.

(** C2.  On a field whose value is blank, [validateField] returns false and
    puts "This field is required" in the group's message slot exactly when
    the field is required; when it is not required, it returns true and
    leaves the group without error marker and with an empty message. *)
Theorem validateField_blank (field : Field) (dom : DOM) (g : FormGroup) (shown : jsstring) :
  dom !! closest_form_group field = Some g →
  errorElement g = Some shown →
  blank (value field) →
  ∃ (ok : bool) (g' : FormGroup),
    validateField field dom = Some (ok, <[closest_form_group field := g']> dom)
    ∧ ((ok = false ∧ errorElement g' = Some (js "This field is required"))
       ↔ required field = true)
    ∧ (required field = true → js "error" ∈ classList g')
    ∧ (required field = false →
         ok = true ∧ (js "error" ∉ classList g') ∧ errorElement g' = Some (js "")).
Proof.
  intros Hg Hslot Hblank.
  exists (verdict field), (settle field g).
  split; [apply validateField_run; done|].
  assert (fails_email field = false) as Hemail.
  { unfold fails_email. apply trim_length_blank in Hblank as ->.
    rewrite andb_false_r. done. }
  assert (fails_required field = required field) as Hreq.
  { unfold fails_required. apply validateRequired_false in Hblank as ->.
    apply andb_true_r. }
  unfold verdict, settle. rewrite Hemail, Hreq.
  destruct (required field); cbv beta iota delta [negb andb].
  - rewrite (errorElement_shown _ _ _ Hslot). split; [done|].
    split; [intros _; apply error_in_showError | done].
  - rewrite (errorElement_cleared _ _ Hslot). split; [split; [intros [? _]|]; done|].
    split; [done|]. intros _. split; [done|].
    split; [apply error_not_in_clearError | done].
Qed.

Lemma validateField_blank_witness :
  ∃ (ok : bool) (g' : FormGroup),
    validateField
      {| control := INPUT (js "text"); name := js "name"; value := js "   ";
         required := true; closest_form_group := 0 |}
      {[ 0 := {| classList := ∅; errorElement := Some (js "") |} ]}
    = Some (ok, <[0 := g']> {[ 0 := {| classList := ∅; errorElement := Some (js "") |} ]})
    ∧ ((ok = false ∧ errorElement g' = Some (js "This field is required"))
       ↔ true = true)
    ∧ (true = true → js "error" ∈ classList g')
    ∧ (true = false →
         ok = true ∧ (js "error" ∉ classList g') ∧ errorElement g' = Some (js "")).
Proof.
  apply (validateField_blank
           {| control := INPUT (js "text"); name := js "name"; value := js "   ";
              required := true; closest_form_group := 0 |}
           {[ 0 := {| classList := ∅; errorElement := Some (js "") |} ]}
           {| classList := ∅; errorElement := Some (js "") |} (js "")).
  - reflexivity.
  - reflexivity.
  - apply (bool_decide_unpack _). vm_compute. exact I.
Defined.

(** C3.  On an email field whose value is not blank and fails
    [validateEmail], [validateField] returns false and puts "Please enter a
    valid email address" in the group's message slot; on an email field
    that is blank and not required it returns true and shows no error. *)
Theorem validateField_email (field : Field) (dom : DOM) (g : FormGroup) (shown : jsstring) :
  dom !! closest_form_group field = Some g →
  errorElement g = Some shown →
  type field = js "email" →
  (¬ blank (value field) → validateEmail (value field) = false →
     ∃ g' : FormGroup,
       validateField field dom = Some (false, <[closest_form_group field := g']> dom)
       ∧ js "error" ∈ classList g'
       ∧ errorElement g' = Some (js "Please enter a valid email address"))
  ∧ (blank (value field) → required field = false →
     ∃ g' : FormGroup,
       validateField field dom = Some (true, <[closest_form_group field := g']> dom)
       ∧ (js "error" ∉ classList g')
       ∧ errorElement g' = Some (js "")).
Proof.
  intros Hg Hslot Htype. split.
  - intros Hnonblank Hshape.
    assert (validateRequired (value field) = true) as Hreq.
    { apply not_false_is_true. rewrite validateRequired_false. done. }
    exists (settle field g). rewrite (validateField_run _ _ _ Hg).
    assert (fails_required field = false) as Hfr.
    { unfold fails_required. rewrite Hreq. apply andb_false_r. }
    assert (fails_email field = true) as Hfe.
    { unfold fails_email. rewrite Hshape, (bool_decide_eq_true_2 _ Htype).
      unfold validateRequired in Hreq. rewrite Hreq. done. }
    unfold verdict, settle. rewrite Hfr, Hfe.
    split; [done|]. split; [apply error_in_showError|].
    apply (errorElement_shown _ _ _ Hslot).
  - intros Hblank Hoptional.
    exists (settle field g). rewrite (validateField_run _ _ _ Hg).
    assert (fails_required field = false) as Hfr.
    { unfold fails_required. rewrite Hoptional. done. }
    assert (fails_email field = false) as Hfe.
    { unfold fails_email. apply trim_length_blank in Hblank as ->.
      rewrite andb_false_r. done. }
    unfold verdict, settle. rewrite Hfr, Hfe.
    split; [done|]. split; [apply error_not_in_clearError|].
    apply (errorElement_cleared _ _ Hslot).
Qed.

Lemma validateField_email_witness :
  ∃ g' : FormGroup,
    validateField
      {| control := INPUT (js "email"); name := js "email";
         value := js "user@example"; required := true; closest_form_group := 1 |}
      {[ 1 := {| classList := ∅; errorElement := Some (js "") |} ]}
    = Some (false, <[1 := g']> {[ 1 := {| classList := ∅; errorElement := Some (js "") |} ]})
    ∧ js "error" ∈ classList g'
    ∧ errorElement g' = Some (js "Please enter a valid email address").
Proof.
  apply (validateField_email
           {| control := INPUT (js "email"); name := js "email";
              value := js "user@example"; required := true; closest_form_group := 1 |}
           {[ 1 := {| classList := ∅; errorElement := Some (js "") |} ]}
           {| classList := ∅; errorElement := Some (js "") |} (js "")).
  - reflexivity.
  - reflexivity.
  - reflexivity.
  - apply (bool_decide_unpack _). vm_compute. exact I.
  - reflexivity.
Defined.

(** ** validateForm *)

Lemma selects_checked field :
  selects field = true ↔ required field = true ∨ type field = js "email".
Proof.
  unfold selects, type. destruct (control field) as [t|].
  - rewrite orb_true_iff, bool_decide_eq_true. done.
  - split; [auto|]. intros [?|?]; [done | discriminate].
Qed.

Lemma querySelectorAll_checked form field :
  field ∈ querySelectorAll form ↔ checked form field.
Proof.
  unfold querySelectorAll, checked.
  rewrite list_elem_of_filter, selects_checked. tauto.
Qed.

Lemma verdict_false field g :
  verdict field = false → js "error" ∈ classList (settle field g).
Proof.
  unfold verdict, settle.
  destruct (fails_required field); [intros _; apply error_in_showError|].
  destruct (fails_email field); [intros _; apply error_in_showError|].
  discriminate.
Qed.

Lemma after_validateField_unfold (dom : DOM) field :
  after_validateField dom field
  = match dom !! closest_form_group field with
    | Some g => <[closest_form_group field := settle field g]> dom
    | None => dom
    end.
Proof.
  unfold after_validateField.
  destruct (dom !! closest_form_group field) as [g|] eqn:Hg.
  - rewrite (validateField_run _ _ _ Hg). done.
  - rewrite (validateField_throws _ _ Hg). done.
Qed.

Lemma after_validateField_is_Some (dom : DOM) field i :
  is_Some (after_validateField dom field !! i) ↔ is_Some (dom !! i).
Proof.
  rewrite after_validateField_unfold. destruct (dom !! closest_form_group field) as [g|] eqn:Hg; [|done].
  rewrite lookup_insert_is_Some.
  destruct (decide (closest_form_group field = i)) as [<-|]; [|tauto].
  rewrite Hg. split; eauto.
Qed.

(** The loop runs to its end whatever the fields return: it comes to the
    conjunction of their verdicts, and to the DOM every field has had its
    turn on. *)
Lemma forEach_field_run fields isValid (dom : DOM) :
  (∀ f, f ∈ fields → is_Some (dom !! closest_form_group f)) →
  forEach_field fields isValid dom
  = Some (isValid && forallb verdict fields, foldl after_validateField dom fields).
Proof.
  revert isValid dom. induction fields as [|field rest IH]; intros isValid dom Hdom.
  - simpl. rewrite andb_true_r. done.
  - destruct (Hdom field) as [g Hg]; [left|].
    cbn [forEach_field foldl forallb]. unfold mbind, Script_bind.
    rewrite (validateField_run _ _ _ Hg).
    replace (<[closest_form_group field := settle field g]> dom)
      with (after_validateField dom field) by (rewrite after_validateField_unfold, Hg; done).
    rewrite IH.
    + f_equal. f_equal. destruct (verdict field), isValid; done.
    + intros f Hf. apply after_validateField_is_Some, Hdom. right. done.
Qed.

Lemma foldl_after_other fields (dom : DOM) i :
  i ∉ closest_form_group <$> fields →
  foldl after_validateField dom fields !! i = dom !! i.
Proof.
  revert dom. induction fields as [|field rest IH]; intros dom Hi; [done|].
  rewrite fmap_cons, not_elem_of_cons in Hi. destruct Hi as [Hne Hi].
  simpl. rewrite IH by done.
  rewrite after_validateField_unfold. destruct (dom !! closest_form_group field); [|done].
  apply lookup_insert_ne. done.
Qed.

(** When no other field of the list is in its group, a field finds its
    group at the end as its own run of [validateField] left it. *)
Lemma foldl_after_own fields (dom : DOM) field g :
  NoDup (closest_form_group <$> fields) →
  field ∈ fields →
  dom !! closest_form_group field = Some g →
  foldl after_validateField dom fields !! closest_form_group field = Some (settle field g).
Proof.
  revert dom. induction fields as [|first rest IH]; intros dom Hnodup Hin Hg.
  - inversion Hin.
  - rewrite fmap_cons in Hnodup. apply NoDup_cons in Hnodup as [Hfresh Hnodup].
    simpl. apply elem_of_cons in Hin as [<-|Hin].
    + rewrite foldl_after_other by done.
      rewrite after_validateField_unfold. rewrite Hg. apply lookup_insert_eq.
    + apply IH; [done..|].
      assert (closest_form_group first ≠ closest_form_group field) as Hne.
      { intros E. apply Hfresh. rewrite E. apply list_elem_of_fmap. eauto. }
      rewrite after_validateField_unfold. destruct (dom !! closest_form_group first); [|done].
      rewrite lookup_insert_ne; done.
Qed.




(** The two forms the specification gives as examples. *)
Example validateForm_all_valid :
  fst <$> validateForm (contact_form (js "Alice") (js "alice@example.com") (js "Hello"))
            contact_dom
  = Some true.
Proof. vm_compute. reflexivity. Qed.

Example validateForm_blank_name :
  (λ r, (r.1, errorElement <$> r.2 !! 0, errorElement <$> r.2 !! 1,
         errorElement <$> r.2 !! 2))
    <$> validateForm (contact_form (js "") (js "alice@example.com") (js "Hello")) contact_dom
  = Some (false, Some (Some (js "This field is required")),
          Some (Some (js "")), Some (Some (js ""))).
Proof. vm_compute. reflexivity. Qed.

(** Two invalid fields are both marked by the one call. *)
Example validateForm_marks_all :
  (λ r, (r.1, errorElement <$> r.2 !! 0, errorElement <$> r.2 !! 1,
         errorElement <$> r.2 !! 2))
    <$> validateForm (contact_form (js " ") (js "alice@example") (js "Hello")) contact_dom
  = Some (false, Some (Some (js "This field is required")),
          Some (Some (js "Please enter a valid email address")), Some (Some (js ""))).
Proof. vm_compute. reflexivity. Qed.

(** ** The portfolio modal *)

Lemma get_own projectTitle record :
  portfolioData !! projectTitle = Some record → get projectTitle = Own record.
Proof. unfold get. intros ->. done. Qed.

Lemma portfolioData_Project_One :
  portfolioData !! js "Project One"
  = Some {| image := js "images/project1.jpg";
            imageAlt := js "Screenshot of Project 1";
            title := js "Project One";
            description := js "A responsive web application built with modern technologies.";
            detailedDescription := js "This project showcases a fully responsive web application that adapts seamlessly to different screen sizes. Built using HTML5, CSS3, and JavaScript, it features smooth animations, intuitive navigation, and optimized performance. The application demonstrates best practices in web development including semantic HTML, accessibility features, and clean code architecture." |}.
Proof. vm_compute. reflexivity. Qed.

Lemma active_in_added (classes : gset jsstring) : js "active" ∈ classes ∪ {[ js "active" ]}.
Proof. apply elem_of_union. right. apply elem_of_singleton. done. Qed.

Lemma active_not_in_removed (classes : gset jsstring) :
  js "active" ∉ classes ∖ {[ js "active" ]}.
Proof.
  intros [_ Hout]%elem_of_difference. apply Hout, elem_of_singleton. done.
Qed.

(** What [openPortfolioModal] makes of the page for a title the lookup
    answers a record for. *)
Lemma openPortfolioModal_own item projectTitle record page :
  portfolio_title item = Some projectTitle →
  portfolioData !! projectTitle = Some record →
  openPortfolioModal item page
  = Some {| modalImage_src := image record;
            modalImage_alt := imageAlt record;
            modalTitle_textContent := title record;
            modalDescription_textContent := description record;
            modalDetails_textContent := detailedDescription record;
            modal_classList := modal_classList page ∪ {[ js "active" ]};
            body_style_overflow := js "hidden";
            activeElement := ModalClose |}.
Proof.
  intros Ht Hr. unfold openPortfolioModal. rewrite Ht. simpl.
  rewrite (get_own _ _ Hr). done.
Qed.

(** C5.  For a title the record mapping holds, [openPortfolioModal] fills
    the overlay's image source and alt, title, short and long description
    from the record, makes the overlay active and suppresses the scrolling
    of the page; opening "Project One" shows the title "Project One". *)
Theorem openPortfolioModal_known :
  (∀ (item : Item) (projectTitle : jsstring) (record : PortfolioRecord) (page : Page),
      portfolio_title item = Some projectTitle →
      portfolioData !! projectTitle = Some record →
      ∃ page' : Page,
        openPortfolioModal item page = Some page'
        ∧ modalImage_src page' = image record
        ∧ modalImage_alt page' = imageAlt record
        ∧ modalTitle_textContent page' = title record
        ∧ modalDescription_textContent page' = description record
        ∧ modalDetails_textContent page' = detailedDescription record
        ∧ js "active" ∈ modal_classList page'
        ∧ body_style_overflow page' = js "hidden")
  ∧ (∀ (item : Item) (page : Page),
      portfolio_title item = Some (js "Project One") →
      ∃ page' : Page,
        openPortfolioModal item page = Some page'
        ∧ modalTitle_textContent page' = js "Project One"
        ∧ js "active" ∈ modal_classList page').
Proof.
  split.
  - intros item projectTitle record page Ht Hr.
    eexists. split; [apply (openPortfolioModal_own _ _ _ _ Ht Hr)|].
    cbn [modalImage_src modalImage_alt modalTitle_textContent
         modalDescription_textContent modalDetails_textContent
         modal_classList body_style_overflow].
    repeat (split; [done|]).
    split; [apply active_in_added | done].
  - intros item page Ht.
    eexists. split; [apply (openPortfolioModal_own _ _ _ _ Ht portfolioData_Project_One)|].
    cbn [modalTitle_textContent modal_classList title].
    split; [done | apply active_in_added].
Qed.

Lemma openPortfolioModal_known_witness :
  ∃ page' : Page,
    openPortfolioModal {| portfolio_title := Some (js "Project One") |}
      closed_page = Some page'
    ∧ modalTitle_textContent page' = js "Project One"
    ∧ js "active" ∈ modal_classList page'.
Proof.
  apply (proj2 openPortfolioModal_known
           {| portfolio_title := Some (js "Project One") |} closed_page).
  reflexivity.
Defined.

(** X26.  A title that is neither a key of [portfolioData] nor the name of a
    member of [Object.prototype] leaves the page as it is. *)
Lemma openPortfolioModal_miss item projectTitle page :
  portfolio_title item = Some projectTitle →
  portfolioData !! projectTitle = None →
  projectTitle ∉ Object_prototype →
  openPortfolioModal item page = Some page.
Proof.
  intros Ht Hr Hp. unfold openPortfolioModal, get. rewrite Ht. simpl.
  rewrite Hr, bool_decide_eq_false_2 by done. done.
Qed.

(** A title that names a member of [Object.prototype]: the lookup answers
    that member, which passes the test of [if (projectData)]. *)
Lemma openPortfolioModal_inherited item projectTitle page :
  portfolio_title item = Some projectTitle →
  get projectTitle = Inherited →
  openPortfolioModal item page
  = Some {| modalImage_src := js "undefined";
            modalImage_alt := js "undefined";
            modalTitle_textContent := js "";
            modalDescription_textContent := js "";
            modalDetails_textContent := js "";
            modal_classList := modal_classList page ∪ {[ js "active" ]};
            body_style_overflow := js "hidden";
            activeElement := ModalClose |}.
Proof.
  intros Ht Hg. unfold openPortfolioModal. rewrite Ht. simpl. rewrite Hg. done.
Qed.

(** C6.  The title "constructor" is not a key of the record mapping, and
    yet [openPortfolioModal] does not leave the page alone for it: the
    lookup answers the constructor the mapping inherits, so on the closed
    page the overlay is made active, scrolling is suppressed and the
    overlay's content is overwritten. *)
Theorem openPortfolioModal_inherited_title :
  portfolioData !! js "constructor" = None
  ∧ openPortfolioModal {| portfolio_title := Some (js "constructor") |}
      closed_page
    = Some {| modalImage_src := js "undefined";
              modalImage_alt := js "undefined";
              modalTitle_textContent := js "";
              modalDescription_textContent := js "";
              modalDetails_textContent := js "";
              modal_classList := {[ js "active" ]};
              body_style_overflow := js "hidden";
              activeElement := ModalClose |}
  ∧ openPortfolioModal {| portfolio_title := Some (js "constructor") |}
      closed_page
    ≠ Some closed_page.
Proof.
  assert (get (js "constructor") = Inherited) as Hget by (vm_compute; reflexivity).
  split; [vm_compute; reflexivity|].
  rewrite (openPortfolioModal_inherited
             {| portfolio_title := Some (js "constructor") |}
             (js "constructor") closed_page eq_refl Hget).
  split.
  - reflexivity.
  - intros E. apply (f_equal (option_map body_style_overflow)) in E. discriminate E.
Qed.

(** ** Closing *)

Lemma closeModal_classList page :
  modal_classList (closeModal page) = modal_classList page ∖ {[ js "active" ]}.
Proof. unfold closeModal. simpl. destruct (activeElement page); done. Qed.

Lemma closeModal_overflow page : body_style_overflow (closeModal page) = js "".
Proof. unfold closeModal. simpl. destruct (activeElement page); done. Qed.

Lemma closeModal_activeElement page :
  activeElement (closeModal page) = activeElement page.
Proof. unfold closeModal. simpl. destruct (activeElement page); done. Qed.

(** C7.  Whatever the page, [closeModal] leaves the overlay inactive and
    the scrolling of the page free; opening a known title right after it
    leaves scrolling suppressed as opening does, and the page is the one
    opening alone would have left. *)
Theorem closeModal_then_open (page : Page) :
  (js "active" ∉ modal_classList (closeModal page))
  ∧ body_style_overflow (closeModal page) = js ""
  ∧ ∀ (item : Item) (projectTitle : jsstring) (record : PortfolioRecord),
      portfolio_title item = Some projectTitle →
      portfolioData !! projectTitle = Some record →
      ∃ page' : Page,
        openPortfolioModal item (closeModal page) = Some page'
        ∧ body_style_overflow page' = js "hidden"
        ∧ openPortfolioModal item page = Some page'.
Proof.
  split; [|split].
  - rewrite closeModal_classList. apply active_not_in_removed.
  - apply closeModal_overflow.
  - intros item projectTitle record Ht Hr.
    eexists. split; [apply (openPortfolioModal_own _ _ _ _ Ht Hr)|].
    split; [done|].
    rewrite (openPortfolioModal_own _ _ _ _ Ht Hr), closeModal_classList.
    do 2 f_equal. symmetry. apply difference_union_L.
Qed.

Lemma closeModal_then_open_witness :
  ∃ page' : Page,
    openPortfolioModal {| portfolio_title := Some (js "Project Two") |}
      (closeModal closed_page) = Some page'
    ∧ body_style_overflow page' = js "hidden"
    ∧ openPortfolioModal {| portfolio_title := Some (js "Project Two") |}
        closed_page = Some page'.
Proof.
  destruct (closeModal_then_open closed_page) as (_ & _ & Hopen).
  eapply (Hopen {| portfolio_title := Some (js "Project Two") |}
            (js "Project Two")).
  - reflexivity.
  - vm_compute. reflexivity.
Defined.

(** ** Opening twice *)

(** C8.  Opening the same entry twice in a row leaves the page as opening
    it once does: the overlay's content, its state, the scroll suppression
    (and the focus). *)
Theorem openPortfolioModal_idempotent (item : Item) (page : Page) :
  openPortfolioModal item page ≫= openPortfolioModal item
  = openPortfolioModal item page.
Proof.
  unfold openPortfolioModal.
  destruct (portfolio_title item) as [projectTitle|]; [|done].
  cbn [mbind option_bind].
  destruct (truthy (get projectTitle)); cbn [mbind option_bind]; [|done].
  unfold focus. cbn [modalImage_src modalImage_alt modalTitle_textContent
                     modalDescription_textContent modalDetails_textContent
                     modal_classList body_style_overflow].
  do 2 f_equal. rewrite <- (assoc_L (∪)), (idemp_L (∪)). done.
Qed.

(** ** The listeners *)

(** C9.  Pressing Enter or Space on a portfolio entry does what clicking it
    does: both prevent the default action and run [openPortfolioModal] on
    the entry. *)
Theorem item_keydown_click (this : Item) (key : jsstring) (page : Page) :
  key = js "Enter" ∨ key = js " " →
  item_keydown this key page = item_click this page
  ∧ item_click this page = (true, openPortfolioModal this page).
Proof.
  intros Hkey. split; [|done].
  unfold item_keydown, item_click.
  destruct Hkey as [-> | ->]; done.
Qed.

Lemma item_keydown_click_witness :
  item_keydown {| portfolio_title := Some (js "Project One") |}
    (js " ") closed_page
  = item_click {| portfolio_title := Some (js "Project One") |} closed_page
  ∧ item_click {| portfolio_title := Some (js "Project One") |} closed_page
    = (true, openPortfolioModal
               {| portfolio_title := Some (js "Project One") |} closed_page).
Proof.
  apply (item_keydown_click
           {| portfolio_title := Some (js "Project One") |} (js " ") closed_page).
  right. reflexivity.
Defined.

(** C10.  The Escape key closes the overlay when, and only when, it is
    active: on an active overlay the document's listener runs
    [closeModal], which leaves it inactive and scrolling free; on an
    inactive one it leaves the page as it is, scroll suppression included.
    The entries' own keydown listener does nothing on Escape. *)
Theorem document_keydown_Escape (page : Page) :
  (js "active" ∈ modal_classList page →
     document_keydown (js "Escape") page = closeModal page
     ∧ (js "active" ∉ modal_classList (document_keydown (js "Escape") page))
     ∧ body_style_overflow (document_keydown (js "Escape") page) = js "")
  ∧ (js "active" ∉ modal_classList page →
     document_keydown (js "Escape") page = page)
  ∧ (∀ this : Item, item_keydown this (js "Escape") page = (false, Some page)).
Proof.
  unfold document_keydown. split; [|split].
  - intros Hactive. rewrite (bool_decide_eq_true_2 _ Hactive). simpl.
    split; [done|]. split.
    + rewrite closeModal_classList. apply active_not_in_removed.
    + apply closeModal_overflow.
  - intros Hinactive. rewrite (bool_decide_eq_false_2 _ Hinactive). done.
  - intros this. done.
Qed.

Lemma document_keydown_Escape_witness :
  document_keydown (js "Escape") closed_page = closed_page.
Proof.
  destruct (document_keydown_Escape closed_page) as (_ & Hinactive & _).
  apply Hinactive. apply (bool_decide_unpack _). vm_compute. exact I.
Defined.

(** * Further properties of form-validation.js *)

(** ** validateRequired and trim *)

Lemma trimStart_split s :
  ∃ l, s = l ++ trimStart s ∧ blank l
       ∧ ∀ c, head (trimStart s) = Some c → isWhiteSpace c = false.
Proof.
  induction s as [|c s (l & Es & Hl & Hhead)]; simpl.
  - exists []. split; [done|]. split; [intros c Hc; inversion Hc | done].
  - destruct (isWhiteSpace c) eqn:Hc.
    + exists (c :: l). split; [simpl; congruence|]. split; [|done].
      intros c' Hc'. apply elem_of_cons in Hc' as [->|Hc']; auto.
    + exists []. split; [done|]. split; [intros c' Hc'; inversion Hc'|].
      simpl. congruence.
Qed.

Lemma trimEnd_split s :
  ∃ r, s = trimEnd s ++ r ∧ blank r
       ∧ ∀ c, last (trimEnd s) = Some c → isWhiteSpace c = false.
Proof.
  destruct (trimStart_split (reverse s)) as (l & Es & Hl & Hhead).
  exists (reverse l). unfold trimEnd. split; [|split].
  - rewrite <- reverse_app, <- Es, reverse_involutive. done.
  - apply blank_reverse. done.
  - intros c. rewrite last_reverse. apply Hhead.
Qed.

(** X1.  [trim] cuts a blank prefix and a blank suffix off the string, and what
    it keeps neither starts nor ends with whitespace. *)
Theorem trim_cuts_whitespace (s : jsstring) :
  ∃ l r : jsstring,
    s = l ++ trim s ++ r ∧ blank l ∧ blank r
    ∧ (∀ c, head (trim s) = Some c → isWhiteSpace c = false)
    ∧ (∀ c, last (trim s) = Some c → isWhiteSpace c = false).
Proof.
  destruct (trimStart_split s) as (l & Es & Hl & Hhead).
  destruct (trimEnd_split (trimStart s)) as (r & Et & Hr & Hlast).
  exists l, r. unfold trim. split; [congruence|].
  split; [done|]. split; [done|]. split; [|done].
  intros c Hc. apply Hhead. rewrite Et.
  destruct (trimEnd (trimStart s)); [discriminate | done].
Qed.

(** X2.  [validateRequired] is true exactly of the values that hold a character
    that is not whitespace. *)
Theorem validateRequired_true_iff (s : jsstring) :
  validateRequired s = true ↔ ∃ c, c ∈ s ∧ isWhiteSpace c = false.
Proof.
  rewrite <- not_false_iff_true, validateRequired_false. split.
  - intros Hnot.
    assert (¬ Forall (λ c, isWhiteSpace c = true) s) as HF.
    { rewrite Forall_forall. done. }
    apply not_Forall_Exists in HF; [|apply _].
    apply Exists_exists in HF as (c & Hc & Hws).
    exists c. split; [done|]. apply not_true_is_false. done.
  - intros (c & Hc & Hws) Hblank. rewrite (Hblank c Hc) in Hws. done.
Qed.

Lemma blank_app a b : blank (a ++ b) ↔ blank a ∧ blank b.
Proof.
  unfold blank. split.
  - intros H. split; intros c Hc; apply H, elem_of_app; auto.
  - intros [Ha Hb] c Hc. apply elem_of_app in Hc as [Hc|Hc]; auto.
Qed.

(** X3.  A value made of two parts passes [validateRequired] exactly when one
    of the parts does: whitespace around or inside a value never counts. *)
Theorem validateRequired_app (a b : jsstring) :
  validateRequired (a ++ b) = validateRequired a || validateRequired b.
Proof.
  destruct (validateRequired (a ++ b)) eqn:Hab; symmetry.
  - apply not_false_iff_true. rewrite orb_false_iff, !validateRequired_false.
    intros Hboth. apply blank_app in Hboth.
    apply validateRequired_false in Hboth. congruence.
  - apply validateRequired_false, blank_app in Hab as [Ha Hb].
    apply validateRequired_false in Ha, Hb. rewrite Ha, Hb. done.
Qed.

Lemma trimStart_keeps s :
  (∀ c, c ∈ s → isWhiteSpace c = false) → trimStart s = s.
Proof.
  destruct s as [|c s]; [done|]. intros H. simpl.
  rewrite (H c); [done | left].
Qed.

(** X4.  An address [validateEmail] accepts is not blank, and [trim] leaves it
    as it is. *)
Theorem validateEmail_trimmed (s : jsstring) :
  validateEmail s = true → validateRequired s = true ∧ trim s = s.
Proof.
  intros H.
  pose proof (validateEmail_true_inv s H) as (_ & Hnows & _).
  apply validateEmail_true in H as (l & d & t & Es & [Hl _] & _).
  split.
  - apply not_false_iff_true. rewrite validateRequired_false. intros Hblank.
    destruct l as [|c l]; [done|].
    assert (c ∈ s) as Hc by (rewrite Es; left).
    specialize (Hblank c Hc). rewrite (Hnows c Hc) in Hblank. done.
  - unfold trim, trimEnd. rewrite (trimStart_keeps s Hnows).
    rewrite trimStart_keeps, reverse_involutive; [done|].
    intros c Hc. apply Hnows. rewrite elem_of_reverse in Hc. done.
Qed.

Lemma validateEmail_trimmed_witness :
  validateRequired (js "user@example.com") = true
  ∧ trim (js "user@example.com") = js "user@example.com".
Proof. apply (validateEmail_trimmed (js "user@example.com")). reflexivity. Defined.

(** ** validateEmail *)

(** X5.  [validateEmail] accepts the strings [local@domain.tld] with three
    non-empty parts free of whitespace and '@', and no other string. *)
Theorem validateEmail_exactly (s : jsstring) :
  validateEmail s = true
  ↔ ∃ local domain tld : jsstring,
      s = local ++ [Char.at_sign] ++ domain ++ [Char.dot] ++ tld
      ∧ local ≠ [] ∧ domain ≠ [] ∧ tld ≠ []
      ∧ plain local ∧ plain domain ∧ plain tld.
Proof.
  rewrite validateEmail_true. split.
  - intros (l & d & t & E & [? ?] & [? ?] & [? ?]). exists l, d, t. auto 10.
  - intros (l & d & t & E & ? & ? & ? & ? & ? & ?). exists l, d, t. auto.
Qed.

(** ** showError and clearError *)

Lemma clearError_on_showError_on message g :
  clearError_on (showError_on message g) = clearError_on g.
Proof.
  unfold clearError_on, showError_on. simpl. f_equal.
  - apply set_eq. intros c. rewrite !elem_of_difference, elem_of_union. tauto.
  - destruct (errorElement g); done.
Qed.

Lemma clearError_on_idemp g : clearError_on (clearError_on g) = clearError_on g.
Proof.
  unfold clearError_on. simpl. f_equal.
  - apply set_eq. intros c. rewrite !elem_of_difference. tauto.
  - destruct (errorElement g); done.
Qed.

Lemma showError_on_showError_on message message' g :
  showError_on message (showError_on message' g) = showError_on message g.
Proof.
  unfold showError_on. simpl. f_equal.
  - apply set_eq. intros c. rewrite !elem_of_union. tauto.
  - destruct (errorElement g); done.
Qed.

Lemma on_group_on_group formGroup update update' (dom : DOM) :
  (on_group formGroup update' ;; on_group formGroup update) dom
  = on_group formGroup (update ∘ update') dom.
Proof.
  unfold mbind, Script_bind, on_group.
  destruct (dom !! formGroup) as [g|]; [|done].
  rewrite lookup_insert_eq, insert_insert_eq. done.
Qed.

Lemma on_group_ext formGroup update update' (dom : DOM) :
  (∀ g, update g = update' g) →
  on_group formGroup update dom = on_group formGroup update' dom.
Proof.
  intros H. unfold on_group. destruct (dom !! formGroup); [|done].
  rewrite H. done.
Qed.

(** X6.  Clearing undoes showing, whatever the message; showing again replaces
    the message; clearing twice is clearing once. *)
Theorem showError_clearError (formGroup : nat) (message message' : jsstring) (dom : DOM) :
  (showError formGroup message ;; clearError formGroup) dom = clearError formGroup dom
  ∧ (showError formGroup message' ;; showError formGroup message) dom
    = showError formGroup message dom
  ∧ (clearError formGroup ;; clearError formGroup) dom = clearError formGroup dom.
Proof.
  unfold showError, clearError. rewrite !on_group_on_group.
  split; [|split]; apply on_group_ext; intros g; simpl.
  - apply clearError_on_showError_on.
  - apply showError_on_showError_on.
  - apply clearError_on_idemp.
Qed.

(** ** validateField *)

Lemma validateField_Some field (dom : DOM) ok dom' :
  validateField field dom = Some (ok, dom') →
  ∃ g, dom !! closest_form_group field = Some g
       ∧ ok = verdict field
       ∧ dom' = <[closest_form_group field := settle field g]> dom.
Proof.
  intros H. destruct (dom !! closest_form_group field) as [g|] eqn:Hg.
  - rewrite (validateField_run _ _ _ Hg) in H. exists g. split; [done|].
    split; congruence.
  - rewrite (validateField_throws _ _ Hg) in H. discriminate.
Qed.

Lemma verdict_true_iff field :
  verdict field = true
  ↔ (required field = true → ¬ blank (value field))
    ∧ (type field = js "email" → ¬ blank (value field) →
       validateEmail (value field) = true).
Proof.
  unfold verdict, fails_required, fails_email.
  change (bool_decide (0 < length (trim (value field))))
    with (validateRequired (value field)).
  rewrite <- (validateRequired_false (value field)).
  destruct (decide (type field = js "email")) as [Ht|Ht];
    [rewrite (bool_decide_eq_true_2 _ Ht) | rewrite (bool_decide_eq_false_2 _ Ht)];
    destruct (required field), (validateRequired (value field)),
      (validateEmail (value field));
    simpl; intuition congruence.
Qed.

(** X7.  What [validateField] returns: true exactly when a required field is
    not blank and an email field that is not blank passes [validateEmail]. *)
Theorem validateField_true_iff (field : Field) (dom : DOM) (ok : bool) (dom' : DOM) :
  validateField field dom = Some (ok, dom') →
  (ok = true
   ↔ (required field = true → ¬ blank (value field))
     ∧ (type field = js "email" → ¬ blank (value field) →
        validateEmail (value field) = true)).
Proof.
  intros H. apply validateField_Some in H as (g & _ & -> & _).
  apply verdict_true_iff.
Qed.

Lemma validateField_true_iff_witness :
  true = true
  ↔ (true = true → ¬ blank (js "Alice"))
    ∧ (js "text" = js "email" → ¬ blank (js "Alice") → validateEmail (js "Alice") = true).
Proof.
  apply (validateField_true_iff
           {| control := INPUT (js "text"); name := js "name"; value := js "Alice";
              required := true; closest_form_group := 0 |}
           contact_dom true
           (<[0 := clearError_on pristine_group]> contact_dom)).
  vm_compute. reflexivity.
Defined.

Lemma settle_cases field g :
  (verdict field = true ∧ settle field g = clearError_on g)
  ∨ (verdict field = false
     ∧ ∃ message, message ≠ js ""
                  ∧ settle field g = showError_on message (clearError_on g)).
Proof.
  unfold verdict, settle.
  destruct (fails_required field); [|destruct (fails_email field)]; simpl.
  - right. split; [done|]. eexists. split; [|done]. done.
  - right. split; [done|]. eexists. split; [|done]. done.
  - left. done.
Qed.

Lemma settle_after_clear field g g' :
  clearError_on g = clearError_on g' → settle field g = settle field g'.
Proof. intros E. unfold settle. rewrite E. done. Qed.

Lemma settle_settle field field' g : settle field (settle field' g) = settle field g.
Proof.
  apply settle_after_clear.
  destruct (settle_cases field' g) as [[_ ->]|(_ & m & _ & ->)].
  - apply clearError_on_idemp.
  - rewrite clearError_on_showError_on. apply clearError_on_idemp.
Qed.

(** X8.  [validateField] changes no class of any group but the "error" class
    of the field's own group, and it neither adds nor removes a group or
    the message slot of a group. *)
Theorem validateField_frame (field : Field) (dom : DOM) (ok : bool) (dom' : DOM) :
  validateField field dom = Some (ok, dom') →
  (∀ i, is_Some (dom' !! i) ↔ is_Some (dom !! i))
  ∧ ∀ i g g', dom !! i = Some g → dom' !! i = Some g' →
      (is_Some (errorElement g') ↔ is_Some (errorElement g))
      ∧ ∀ c, ¬ (i = closest_form_group field ∧ c = js "error") →
             (c ∈ classList g' ↔ c ∈ classList g).
Proof.
  intros H. apply validateField_Some in H as (g0 & Hg0 & _ & ->). split.
  - intros i. rewrite lookup_insert_is_Some.
    destruct (decide (closest_form_group field = i)) as [<-|]; [|tauto].
    rewrite Hg0. split; eauto.
  - intros i g g' Hg Hg'.
    destruct (decide (closest_form_group field = i)) as [<-|Hne].
    + rewrite lookup_insert_eq in Hg'. injection Hg' as <-.
      assert (g0 = g) as -> by congruence.
      destruct (settle_cases field g) as [[_ ->]|(_ & m & _ & ->)]; simpl.
      * split; [destruct (errorElement g); split; intros [? ?]; try done; eauto|].
        intros c Hc. rewrite elem_of_difference, elem_of_singleton. tauto.
      * split; [destruct (errorElement g); split; intros [? ?]; try done; eauto|].
        intros c Hc.
        rewrite elem_of_union, elem_of_difference, elem_of_singleton. tauto.
    + rewrite lookup_insert_ne in Hg' by done.
      assert (g' = g) as -> by congruence. done.
Qed.

Lemma validateField_frame_witness :
  (∀ i, is_Some (<[1 := showError_on (js "Please enter a valid email address")
                          (clearError_on pristine_group)]> contact_dom !! i)
        ↔ is_Some (contact_dom !! i))
  ∧ ∀ i g g', contact_dom !! i = Some g →
      <[1 := showError_on (js "Please enter a valid email address")
               (clearError_on pristine_group)]> contact_dom !! i = Some g' →
      (is_Some (errorElement g') ↔ is_Some (errorElement g))
      ∧ ∀ c, ¬ (i = 1 ∧ c = js "error") → (c ∈ classList g' ↔ c ∈ classList g).
Proof.
  apply (validateField_frame
           {| control := INPUT (js "email"); name := js "email";
              value := js "nobody"; required := true; closest_form_group := 1 |}
           contact_dom false).
  vm_compute. reflexivity.
Defined.

(** X9.  Validating a field wipes what an earlier validation left in its group:
    after the validation of any field of the same group, [validateField]
    returns and leaves what it does on its own.  Validating the same field
    twice is validating it once. *)
Theorem validateField_overwrites (earlier field : Field) (dom : DOM) :
  closest_form_group earlier = closest_form_group field →
  (validateField earlier ;; validateField field) dom = validateField field dom.
Proof.
  intros Hsame. unfold mbind, Script_bind.
  destruct (dom !! closest_form_group field) as [g|] eqn:Hg.
  - rewrite (validateField_run earlier dom g) by congruence.
    rewrite Hsame.
    rewrite (validateField_run field _ (settle earlier g)) by apply lookup_insert_eq.
    rewrite (validateField_run field dom g Hg).
    rewrite insert_insert_eq, settle_settle. done.
  - rewrite (validateField_throws earlier dom) by congruence.
    rewrite (validateField_throws field dom Hg). done.
Qed.

Lemma validateField_overwrites_witness :
  (validateField
     {| control := INPUT (js "email"); name := js "email"; value := js "nobody";
        required := true; closest_form_group := 1 |} ;;
   validateField
     {| control := INPUT (js "email"); name := js "email"; value := js "nobody@example.com";
        required := true; closest_form_group := 1 |}) contact_dom
  = validateField
      {| control := INPUT (js "email"); name := js "email"; value := js "nobody@example.com";
         required := true; closest_form_group := 1 |} contact_dom.
Proof.
  apply (validateField_overwrites
           {| control := INPUT (js "email"); name := js "email"; value := js "nobody";
              required := true; closest_form_group := 1 |}
           {| control := INPUT (js "email"); name := js "email";
              value := js "nobody@example.com";
              required := true; closest_form_group := 1 |}
           contact_dom).
  reflexivity.
Defined.

Lemma settle_consistent field g :
  (js "error" ∈ classList (settle field g) ↔ verdict field = false)
  ∧ ∀ message, errorElement (settle field g) = Some message →
               (message ≠ js "" ↔ verdict field = false).
Proof.
  destruct (settle_cases field g) as [[Hv ->]|(Hv & m & Hm & ->)]; rewrite Hv.
  - split.
    + split; [|done]. intros H. destruct (error_not_in_clearError g H).
    + simpl. intros message. destruct (errorElement g); [|done].
      intros [= <-]. split; done.
  - split.
    + split; [done|]. intros _. apply error_in_showError.
    + simpl. intros message. destruct (errorElement g); [|done].
      intros [= <-]. split; done.
Qed.

(** X10.  Whatever the group showed before, [validateField] leaves it marked
    with the error exactly when it returns false, and (the group having a
    message slot) with a message that is not empty exactly then. *)
Theorem validateField_consistent (field : Field) (dom : DOM) (ok : bool) (dom' : DOM) :
  validateField field dom = Some (ok, dom') →
  ∃ g', dom' !! closest_form_group field = Some g'
        ∧ (js "error" ∈ classList g' ↔ ok = false)
        ∧ ∀ message, errorElement g' = Some message → (message ≠ js "" ↔ ok = false).
Proof.
  intros H. apply validateField_Some in H as (g & Hg & -> & ->).
  exists (settle field g). split; [apply lookup_insert_eq|].
  apply settle_consistent.
Qed.

Lemma validateField_consistent_witness :
  ∃ g', <[0 := showError_on (js "This field is required") (clearError_on pristine_group)]>
          contact_dom !! 0 = Some g'
        ∧ (js "error" ∈ classList g' ↔ false = false)
        ∧ ∀ message, errorElement g' = Some message → (message ≠ js "" ↔ false = false).
Proof.
  apply (validateField_consistent
           {| control := INPUT (js "text"); name := js "name"; value := js " ";
              required := true; closest_form_group := 0 |}
           contact_dom false).
  vm_compute. reflexivity.
Defined.

(** ** validateForm *)

Lemma after_validateField_lookup (dom : DOM) field i :
  after_validateField dom field !! i
  = if decide (closest_form_group field = i) then settle field <$> dom !! i
    else dom !! i.
Proof.
  rewrite after_validateField_unfold.
  destruct (decide (closest_form_group field = i)) as [<-|Hne].
  - destruct (dom !! closest_form_group field) as [g|] eqn:Hg.
    + rewrite lookup_insert_eq. done.
    + rewrite Hg. done.
  - destruct (dom !! closest_form_group field); [|done].
    apply lookup_insert_ne. done.
Qed.

Lemma last_in_group_snoc i fields field :
  last_in_group i (fields ++ [field])
  = if decide (closest_form_group field = i) then Some field
    else last_in_group i fields.
Proof.
  unfold last_in_group. rewrite filter_app, filter_cons, filter_nil.
  destruct (decide (closest_form_group field = i)).
  - apply last_snoc.
  - rewrite app_nil_r. done.
Qed.

Lemma foldl_after_lookup fields (dom : DOM) i :
  foldl after_validateField dom fields !! i
  = match last_in_group i fields with
    | Some field => settle field <$> dom !! i
    | None => dom !! i
    end.
Proof.
  induction fields as [|field fields IH] using rev_ind; [done|].
  rewrite foldl_snoc, after_validateField_lookup, last_in_group_snoc.
  destruct (decide (closest_form_group field = i)); [|done].
  rewrite IH. destruct (last_in_group i fields); [|done].
  destruct (dom !! i); [|done]. simpl. rewrite settle_settle. done.
Qed.

Lemma forEach_field_throws fields isValid (dom : DOM) field :
  field ∈ fields → dom !! closest_form_group field = None →
  forEach_field fields isValid dom = None.
Proof.
  revert isValid dom. induction fields as [|first rest IH]; intros isValid dom Hin Hnone.
  - inversion Hin.
  - cbn [forEach_field]. unfold mbind, Script_bind.
    destruct (dom !! closest_form_group first) as [g|] eqn:Hg.
    + rewrite (validateField_run _ _ _ Hg).
      apply elem_of_cons in Hin as [->|Hin]; [congruence|].
      apply IH; [done|].
      rewrite lookup_insert_ne; [done | congruence].
    + rewrite (validateField_throws _ _ Hg). done.
Qed.

Lemma validateForm_Some form (dom : DOM) ok dom' :
  validateForm form dom = Some (ok, dom') →
  (∀ f, f ∈ querySelectorAll form → is_Some (dom !! closest_form_group f))
  ∧ ok = forallb verdict (querySelectorAll form)
  ∧ dom' = foldl after_validateField dom (querySelectorAll form).
Proof.
  intros H.
  assert (∀ f, f ∈ querySelectorAll form → is_Some (dom !! closest_form_group f))
    as Hdom.
  { intros f Hf. destruct (dom !! closest_form_group f) eqn:Hg; [eauto|].
    unfold validateForm in H. rewrite (forEach_field_throws _ _ _ f Hf Hg) in H.
    discriminate. }
  split; [done|]. unfold validateForm in H.
  rewrite (forEach_field_run _ _ _ Hdom) in H.
  injection H as Hok Hdom'. split; [rewrite <- Hok|]; done.
Qed.

(** X11.  [validateForm] throws as soon as one of the fields it checks is
    outside every group, whatever the other fields are. *)
Theorem validateForm_throws (form : Form) (dom : DOM) (field : Field) :
  checked form field →
  dom !! closest_form_group field = None →
  validateForm form dom = None.
Proof.
  intros Hf Hnone. unfold validateForm.
  apply (forEach_field_throws _ _ _ field); [|done].
  apply querySelectorAll_checked. done.
Qed.

Lemma validateForm_throws_witness :
  validateForm (contact_form (js "Alice") (js "alice@example.com") (js "Hello"))
    (delete 2 contact_dom) = None.
Proof.
  apply (validateForm_throws _ _
           {| control := TEXTAREA; name := js "message";
              value := js "Hello"; required := true; closest_form_group := 2 |}).
  - split; [|left; reflexivity]. unfold contact_form, controls.
    right. right. left.
  - vm_compute. reflexivity.
Defined.

(** X12.  When [validateForm] returns, the class list of every group is the
    one the last of the checked fields that are in the group leaves when
    validated on its own, and the class list of a group none of them is in
    is as it was: of several checked fields in one group, the last alone
    decides whether the group is marked. *)
Theorem validateForm_last_wins (form : Form) (dom : DOM) (ok : bool) (dom' : DOM) :
  validateForm form dom = Some (ok, dom') →
  ∀ i, classList <$> dom' !! i
       = match last_in_group i (querySelectorAll form) with
         | Some field => classList <$> after_validateField dom field !! i
         | None => classList <$> dom !! i
         end.
Proof.
  intros H i. apply validateForm_Some in H as (_ & _ & ->).
  rewrite foldl_after_lookup.
  destruct (last_in_group i (querySelectorAll form)) as [field|] eqn:Hlast; [|done].
  rewrite after_validateField_lookup.
  assert (closest_form_group field = i) as Hi.
  { unfold last_in_group in Hlast. apply last_Some_elem_of in Hlast.
    apply list_elem_of_filter in Hlast as [? _]. done. }
  rewrite decide_True by done. done.
Qed.

Lemma validateForm_last_wins_witness :
  classList <$> <[0 := clearError_on pristine_group]> contact_dom !! 0
  = match last_in_group 0 (querySelectorAll (crowded_form (js "") (js "Smith"))) with
    | Some field => classList <$> after_validateField contact_dom field !! 0
    | None => classList <$> contact_dom !! 0
    end.
Proof.
  apply (validateForm_last_wins (crowded_form (js "") (js "Smith")) contact_dom false
           (<[0 := clearError_on pristine_group]> contact_dom)).
  vm_compute. reflexivity.
Defined.

(** Two required inputs in one group, the first blank and the second
    filled in: [validateForm] returns false and the group shows no error. *)
Example validateForm_shared_group :
  (λ r, (r.1, classList <$> r.2 !! 0, errorElement <$> r.2 !! 0))
    <$> validateForm (crowded_form (js "") (js "Smith")) contact_dom
  = Some (false, Some ∅, Some (Some (js ""))).
Proof. vm_compute. reflexivity. Qed.

Lemma foldl_after_is_Some fields (dom : DOM) i :
  is_Some (foldl after_validateField dom fields !! i) ↔ is_Some (dom !! i).
Proof.
  rewrite foldl_after_lookup. destruct (last_in_group i fields); [|done].
  rewrite fmap_is_Some. done.
Qed.

(** X13.  Validating a form a second time changes nothing: [validateForm]
    returns what it returned and leaves the DOM it left. *)
Theorem validateForm_idempotent (form : Form) (dom : DOM) (ok : bool) (dom' : DOM) :
  validateForm form dom = Some (ok, dom') →
  validateForm form dom' = Some (ok, dom').
Proof.
  intros H. apply validateForm_Some in H as (Hdom & -> & ->).
  unfold validateForm. rewrite forEach_field_run.
  - f_equal. f_equal. apply map_eq. intros i.
    rewrite (foldl_after_lookup _ (foldl _ _ _)), foldl_after_lookup.
    destruct (last_in_group i (querySelectorAll form)); [|done].
    destruct (dom !! i); [|done]. simpl. rewrite settle_settle. done.
  - intros f Hf. apply foldl_after_is_Some, Hdom, Hf.
Qed.

Lemma validateForm_idempotent_witness :
  validateForm (contact_form (js "") (js "alice@example") (js "Hello"))
    (<[0 := showError_on (js "This field is required") (clearError_on pristine_group)]>
       (<[1 := showError_on (js "Please enter a valid email address")
                 (clearError_on pristine_group)]>
          (<[2 := clearError_on pristine_group]> contact_dom)))
  = Some (false,
          <[0 := showError_on (js "This field is required") (clearError_on pristine_group)]>
            (<[1 := showError_on (js "Please enter a valid email address")
                      (clearError_on pristine_group)]>
               (<[2 := clearError_on pristine_group]> contact_dom))).
Proof.
  apply (validateForm_idempotent
           (contact_form (js "") (js "alice@example") (js "Hello")) contact_dom).
  vm_compute. reflexivity.
Defined.

Lemma last_in_group_exists fields field :
  field ∈ fields →
  ∃ f, last_in_group (closest_form_group field) fields = Some f
       ∧ f ∈ fields ∧ closest_form_group f = closest_form_group field.
Proof.
  intros Hin. unfold last_in_group.
  destruct (last (filter (λ f, closest_form_group f = closest_form_group field) fields))
    as [f|] eqn:Hlast.
  - exists f. split; [done|].
    apply last_Some_elem_of, list_elem_of_filter in Hlast. tauto.
  - apply last_None in Hlast.
    assert (field ∈ filter (λ f, closest_form_group f = closest_form_group field) fields)
      as Hf by (apply list_elem_of_filter; done).
    rewrite Hlast in Hf. inversion Hf.
Qed.

(** X14.  When [validateForm] returns true, the group of every field it checked
    is left without the error marker and with an empty message. *)
Theorem validateForm_true_clean (form : Form) (dom dom' : DOM) :
  validateForm form dom = Some (true, dom') →
  ∀ field, checked form field →
    ∃ g', dom' !! closest_form_group field = Some g'
          ∧ (js "error" ∉ classList g')
          ∧ ∀ message, errorElement g' = Some message → message = js "".
Proof.
  intros H field Hf. apply validateForm_Some in H as (Hdom & Hok & ->).
  apply querySelectorAll_checked in Hf.
  destruct (last_in_group_exists _ _ Hf) as (f & Hlast & Hfin & Hsame).
  destruct (Hdom field Hf) as [g Hg].
  exists (settle f g). split.
  - rewrite foldl_after_lookup, Hlast, Hg. done.
  - symmetry in Hok. rewrite forallb_forall in Hok.
    assert (verdict f = true) as Hv by (apply Hok, list_elem_of_In; done).
    destruct (settle_consistent f g) as [Hmark Hmsg]. split.
    + rewrite Hmark, Hv. done.
    + intros message Hm. destruct (decide (message = js "")) as [|Hne]; [done|].
      apply (Hmsg message Hm) in Hne. congruence.
Qed.

Lemma validateForm_true_clean_witness :
  ∃ g', <[0 := clearError_on pristine_group]>
          (<[1 := clearError_on pristine_group]>
             (<[2 := clearError_on pristine_group]> contact_dom))
        !! 1 = Some g'
        ∧ (js "error" ∉ classList g')
        ∧ ∀ message, errorElement g' = Some message → message = js "".
Proof.
  apply (validateForm_true_clean
           (contact_form (js "Alice") (js "alice@example.com") (js "Hello")) contact_dom)
    with (field := {| control := INPUT (js "email"); name := js "email";
                      value := js "alice@example.com"; required := true;
                      closest_form_group := 1 |}).
  - vm_compute. reflexivity.
  - split; [|left; reflexivity]. unfold contact_form, controls. right. left.
Defined.

Lemma forallb_false_elem {A} (P : A → bool) (l : list A) :
  forallb P l = false → ∃ x, x ∈ l ∧ P x = false.
Proof.
  induction l as [|x l IH]; simpl; [done|].
  destruct (P x) eqn:Hx; simpl.
  - intros H. destruct (IH H) as (y & Hy & HP). exists y. split; [right|]; done.
  - intros _. exists x. split; [left | done].
Qed.

(** X15.  When [validateForm] returns false and no two of the fields it checked
    share a group, the group of one of them is left marked with the error. *)
Theorem validateForm_false_marked (form : Form) (dom dom' : DOM) :
  validateForm form dom = Some (false, dom') →
  NoDup (closest_form_group <$> querySelectorAll form) →
  ∃ field g', checked form field
              ∧ dom' !! closest_form_group field = Some g'
              ∧ js "error" ∈ classList g'.
Proof.
  intros H Hnodup. apply validateForm_Some in H as (Hdom & Hok & ->).
  symmetry in Hok. apply forallb_false_elem in Hok as (field & Hf & Hv).
  destruct (Hdom field Hf) as [g Hg].
  exists field, (settle field g). split; [apply querySelectorAll_checked; done|].
  split; [apply foldl_after_own; done|].
  apply verdict_false. done.
Qed.

Lemma validateForm_false_marked_witness :
  ∃ field g', checked (contact_form (js "") (js "alice@example.com") (js "Hello")) field
              ∧ <[0 := showError_on (js "This field is required")
                         (clearError_on pristine_group)]>
                  (<[1 := clearError_on pristine_group]>
                     (<[2 := clearError_on pristine_group]> contact_dom))
                !! closest_form_group field = Some g'
              ∧ js "error" ∈ classList g'.
Proof.
  apply (validateForm_false_marked
           (contact_form (js "") (js "alice@example.com") (js "Hello")) contact_dom).
  - vm_compute. reflexivity.
  - apply (bool_decide_unpack _). vm_compute. exact I.
Defined.

(** ** The listeners of the contact form *)

Lemma clearError_run formGroup (dom : DOM) g :
  dom !! formGroup = Some g →
  clearError formGroup dom = Some ((), <[formGroup := clearError_on g]> dom).
Proof. apply on_group_run. Qed.

(** X16.  Typing in a field after it lost focus leaves its group cleared,
    whether the validation on blur had marked it or not. *)
Theorem field_input_after_blur (field typed : Field) (dom : DOM) (g : FormGroup) :
  closest_form_group typed = closest_form_group field →
  dom !! closest_form_group field = Some g →
  (field_blur field ;; field_input typed) dom
  = Some ((), <[closest_form_group field := clearError_on g]> dom).
Proof.
  intros Hsame Hg. unfold field_blur, field_input, contains_error.
  unfold mbind, Script_bind, mret, Script_ret.
  rewrite (validateField_run _ _ _ Hg), Hsame, lookup_insert_eq.
  destruct (settle_cases field g) as [[_ ->]|(_ & m & _ & ->)].
  - rewrite bool_decide_eq_false_2 by apply error_not_in_clearError. done.
  - rewrite bool_decide_eq_true_2 by apply error_in_showError.
    erewrite clearError_run by apply lookup_insert_eq.
    rewrite insert_insert_eq, clearError_on_showError_on, clearError_on_idemp. done.
Qed.

Lemma field_input_after_blur_witness :
  (field_blur
     {| control := INPUT (js "email"); name := js "email"; value := js "nobody";
        required := true; closest_form_group := 1 |} ;;
   field_input
     {| control := INPUT (js "email"); name := js "email"; value := js "nobody@";
        required := true; closest_form_group := 1 |}) contact_dom
  = Some ((), <[1 := clearError_on pristine_group]> contact_dom).
Proof.
  apply (field_input_after_blur
           {| control := INPUT (js "email"); name := js "email"; value := js "nobody";
              required := true; closest_form_group := 1 |}
           {| control := INPUT (js "email"); name := js "email"; value := js "nobody@";
              required := true; closest_form_group := 1 |}
           contact_dom pristine_group).
  - reflexivity.
  - reflexivity.
Defined.

(** Typing touches a group only to clear an error marker: in a group that
    is not marked, it leaves everything, a message shown included. *)
Theorem field_input_unmarked (this : Field) (dom : DOM) (g : FormGroup) :
  dom !! closest_form_group this = Some g →
  js "error" ∉ classList g →
  field_input this dom = Some ((), dom).
Proof.
  intros Hg Hno. unfold field_input, contains_error, mbind, Script_bind.
  rewrite Hg, bool_decide_eq_false_2 by done. done.
Qed.

Lemma field_input_unmarked_witness :
  field_input
    {| control := INPUT (js "text"); name := js "name"; value := js "A";
       required := true; closest_form_group := 0 |}
    {[ 0 := {| classList := ∅; errorElement := Some (js "stale") |} ]}
  = Some ((), {[ 0 := {| classList := ∅; errorElement := Some (js "stale") |} ]}).
Proof.
  apply (field_input_unmarked _ _ {| classList := ∅; errorElement := Some (js "stale") |}).
  - reflexivity.
  - apply (bool_decide_unpack _). vm_compute. exact I.
Defined.




(** X18.  Submitting a form that does not validate: nothing is announced to the
    user and the form is not reset; the failure is logged and the DOM is
    the one [validateForm] left, errors shown. *)
Theorem form_submit_invalid (this : Form) (formGroups : list nat) (dom : DOM)
    (effects : list Effect) (dom' : DOM) :
  form_submit this formGroups dom = (true, Some (effects, dom')) →
  (∀ d, validateForm this dom ≠ Some (true, d)) →
  validateForm this dom = Some (false, dom')
  ∧ effects = [console_log (js "Form validation failed")]
  ∧ reset ∉ effects.
Proof.
  unfold form_submit. intros H Hinvalid.
  destruct (validateForm this dom) as [[[] d]|]; [destruct (Hinvalid d eq_refl)| |done].
  injection H as <- <-. split; [done|]. split; [done|].
  intros Hin. apply list_elem_of_singleton in Hin. discriminate.
Qed.

Lemma form_submit_invalid_witness :
  validateForm (contact_form (js "") (js "alice@example.com") (js "Hello")) contact_dom
  = Some (false,
          <[0 := showError_on (js "This field is required") (clearError_on pristine_group)]>
            (<[1 := clearError_on pristine_group]>
               (<[2 := clearError_on pristine_group]> contact_dom)))
  ∧ [console_log (js "Form validation failed")]
    = [console_log (js "Form validation failed")]
  ∧ reset ∉ [console_log (js "Form validation failed")].
Proof.
  apply (form_submit_invalid
           (contact_form (js "") (js "alice@example.com") (js "Hello")) [0; 1; 2]
           contact_dom).
  - vm_compute. reflexivity.
  - intros d. vm_compute. discriminate.
Defined.














(** * Further properties of portfolio.js *)

(** ** closeModal *)

Lemma closeModal_eq page :
  closeModal page
  = {| modalImage_src := modalImage_src page;
       modalImage_alt := modalImage_alt page;
       modalTitle_textContent := modalTitle_textContent page;
       modalDescription_textContent := modalDescription_textContent page;
       modalDetails_textContent := modalDetails_textContent page;
       modal_classList := modal_classList page ∖ {[ js "active" ]};
       body_style_overflow := js "";
       activeElement := activeElement page |}.
Proof. unfold closeModal. simpl. destruct (activeElement page); done. Qed.

(** X21.  Closing twice is closing once. *)
Theorem closeModal_idempotent (page : Page) :
  closeModal (closeModal page) = closeModal page.
Proof.
  rewrite !closeModal_eq. simpl. f_equal.
  apply set_eq. intros c. rewrite !elem_of_difference. tauto.
Qed.

(** X22.  [closeModal] writes to nothing but the overlay's "active" class and
    the overflow of the body: what the overlay shows stays in place, its
    other classes stay, and the focus stays where it is (on no path does
    [closeModal] give the focus to an element that does not have it). *)
Theorem closeModal_frame (page : Page) :
  modalImage_src (closeModal page) = modalImage_src page
  ∧ modalImage_alt (closeModal page) = modalImage_alt page
  ∧ modalTitle_textContent (closeModal page) = modalTitle_textContent page
  ∧ modalDescription_textContent (closeModal page) = modalDescription_textContent page
  ∧ modalDetails_textContent (closeModal page) = modalDetails_textContent page
  ∧ activeElement (closeModal page) = activeElement page
  ∧ ∀ c, c ≠ js "active" → c ∈ modal_classList (closeModal page) ↔ c ∈ modal_classList page.
Proof.
  rewrite closeModal_eq. simpl. repeat (split; [done|]).
  intros c Hc. rewrite elem_of_difference, elem_of_singleton. tauto.
Qed.

(** ** Opening and closing *)

(** X23.  Opening a known entry on a page whose overlay is inactive and whose
    scrolling is free, then closing: the overlay's classes and the overflow
    of the body are back as they were; the overlay keeps the entry's
    content. *)
Theorem open_then_close (item : Item) (projectTitle : jsstring) (record : PortfolioRecord)
    (page : Page) :
  portfolio_title item = Some projectTitle →
  portfolioData !! projectTitle = Some record →
  js "active" ∉ modal_classList page →
  body_style_overflow page = js "" →
  ∃ opened : Page,
    openPortfolioModal item page = Some opened
    ∧ modal_classList (closeModal opened) = modal_classList page
    ∧ body_style_overflow (closeModal opened) = body_style_overflow page
    ∧ modalTitle_textContent (closeModal opened) = title record
    ∧ modalImage_src (closeModal opened) = image record.
Proof.
  intros Ht Hr Hinactive Hfree.
  eexists. split; [apply (openPortfolioModal_own _ _ _ _ Ht Hr)|].
  rewrite closeModal_eq. simpl. split; [|split; [|split]]; try done.
  apply set_eq. intros c.
  rewrite elem_of_difference, elem_of_union, elem_of_singleton.
  split; [tauto|]. intros Hc. split; [auto|]. intros ->. done.
Qed.

Lemma open_then_close_witness :
  ∃ opened : Page,
    openPortfolioModal {| portfolio_title := Some (js "Project Three") |} closed_page
    = Some opened
    ∧ modal_classList (closeModal opened) = modal_classList closed_page
    ∧ body_style_overflow (closeModal opened) = body_style_overflow closed_page
    ∧ modalTitle_textContent (closeModal opened)
      = title {| image := js "images/project3.jpg";
                 imageAlt := js "Screenshot of Project 3";
                 title := js "Project Three";
                 description := js "A portfolio website showcasing creative work and design skills.";
                 detailedDescription := js "A comprehensive portfolio website designed to showcase creative work and professional achievements. The site features a clean, modern design with emphasis on visual presentation. Includes project galleries, detailed case studies, and contact integration. Built with performance and accessibility in mind, ensuring fast load times and compatibility across all devices." |}
    ∧ modalImage_src (closeModal opened)
      = image {| image := js "images/project3.jpg";
                 imageAlt := js "Screenshot of Project 3";
                 title := js "Project Three";
                 description := js "A portfolio website showcasing creative work and design skills.";
                 detailedDescription := js "A comprehensive portfolio website designed to showcase creative work and professional achievements. The site features a clean, modern design with emphasis on visual presentation. Includes project galleries, detailed case studies, and contact integration. Built with performance and accessibility in mind, ensuring fast load times and compatibility across all devices." |}.
Proof.
  apply (open_then_close {| portfolio_title := Some (js "Project Three") |}
           (js "Project Three")).
  - reflexivity.
  - vm_compute. reflexivity.
  - apply (bool_decide_unpack _). vm_compute. exact I.
  - reflexivity.
Defined.

(** X24.  Opening a known entry while another entry is open shows the new entry
    as if it had been opened first: nothing of the entry opened before is
    left. *)
Theorem open_replaces (before item : Item) (projectTitle : jsstring)
    (record : PortfolioRecord) (page : Page) :
  is_Some (portfolio_title before) →
  portfolio_title item = Some projectTitle →
  portfolioData !! projectTitle = Some record →
  openPortfolioModal before page ≫= openPortfolioModal item
  = openPortfolioModal item page.
Proof.
  intros [earlier Hb] Ht Hr.
  rewrite (openPortfolioModal_own _ _ _ page Ht Hr).
  destruct (openPortfolioModal before page) as [opened|] eqn:Hopened;
    unfold openPortfolioModal in Hopened; rewrite Hb in Hopened;
    cbn [mbind option_bind] in Hopened;
    destruct (truthy (get earlier)); try discriminate;
    injection Hopened as <-; cbn [mbind option_bind];
    rewrite (openPortfolioModal_own _ _ _ _ Ht Hr); [|done].
  unfold focus. cbn [modal_classList]. do 2 f_equal.
  rewrite <- (assoc_L (∪)), (idemp_L (∪)). done.
Qed.

Lemma open_replaces_witness :
  openPortfolioModal {| portfolio_title := Some (js "Project One") |} closed_page
    ≫= openPortfolioModal {| portfolio_title := Some (js "Project Two") |}
  = openPortfolioModal {| portfolio_title := Some (js "Project Two") |} closed_page.
Proof.
  apply (open_replaces {| portfolio_title := Some (js "Project One") |}
           {| portfolio_title := Some (js "Project Two") |} (js "Project Two")
           {| image := js "images/project2.jpg";
              imageAlt := js "Screenshot of Project 2";
              title := js "Project Two";
              description := js "An interactive website featuring smooth animations and user-friendly design.";
              detailedDescription := js "An engaging interactive website that combines beautiful design with functional user experience. Features include scroll-triggered animations, dynamic content loading, and responsive layouts. The project emphasizes user engagement through thoughtful interactions and visual feedback, creating an immersive browsing experience." |}).
  - eexists. reflexivity.
  - reflexivity.
  - vm_compute. reflexivity.
Defined.

Lemma portfolioData_titles :
  map_Forall (λ key record, title record = key) portfolioData.
Proof.
  unfold portfolioData. rewrite !list_to_map_cons, list_to_map_nil.
  repeat apply map_Forall_insert_2; done || apply map_Forall_empty.
Qed.

(** X25.  Every record of [portfolioData] is filed under its own title, so the
    overlay is headed by the title of the entry that was activated,
    whichever of the known entries it is. *)
Theorem openPortfolioModal_shows_title (item : Item) (projectTitle : jsstring)
    (record : PortfolioRecord) (page : Page) :
  portfolio_title item = Some projectTitle →
  portfolioData !! projectTitle = Some record →
  ∃ opened : Page,
    openPortfolioModal item page = Some opened
    ∧ modalTitle_textContent opened = projectTitle.
Proof.
  intros Ht Hr. eexists. split; [apply (openPortfolioModal_own _ _ _ _ Ht Hr)|].
  simpl. apply (portfolioData_titles _ _ Hr).
Qed.

Lemma openPortfolioModal_shows_title_witness :
  ∃ opened : Page,
    openPortfolioModal {| portfolio_title := Some (js "Project Two") |} closed_page
    = Some opened
    ∧ modalTitle_textContent opened = js "Project Two".
Proof.
  eapply (openPortfolioModal_shows_title
            {| portfolio_title := Some (js "Project Two") |} (js "Project Two")).
  - reflexivity.
  - vm_compute. reflexivity.
Defined.

Lemma openPortfolioModal_miss_witness :
  openPortfolioModal {| portfolio_title := Some (js "Project Four") |} closed_page
  = Some closed_page.
Proof.
  apply (openPortfolioModal_miss _ (js "Project Four")).
  - reflexivity.
  - vm_compute. reflexivity.
  - apply (bool_decide_unpack _). vm_compute. exact I.
Defined.

(** ** The listeners of the page *)

Lemma scroll_lock_closeModal page : scroll_lock_matches (closeModal page).
Proof.
  unfold scroll_lock_matches. rewrite closeModal_eq. simpl. split.
  - discriminate.
  - intros H. destruct (active_not_in_removed _ H).
Qed.

Lemma scroll_lock_openPortfolioModal item page opened :
  openPortfolioModal item page = Some opened →
  scroll_lock_matches page → scroll_lock_matches opened.
Proof.
  unfold openPortfolioModal. intros H Hpage.
  destruct (portfolio_title item) as [projectTitle|]; [|done].
  cbn [mbind option_bind] in H.
  destruct (truthy (get projectTitle)); injection H as <-; [|done].
  unfold scroll_lock_matches, focus. simpl. split; [|done].
  intros _. apply active_in_added.
Qed.

Lemma scroll_lock_document_keydown key page :
  scroll_lock_matches page → scroll_lock_matches (document_keydown key page).
Proof.
  intros H. unfold document_keydown.
  destruct (_ && _); [apply scroll_lock_closeModal | done].
Qed.

Lemma scroll_lock_default item page (outcome : option Page) :
  outcome = openPortfolioModal item page ∨ outcome = Some page →
  scroll_lock_matches page → scroll_lock_matches (default page outcome).
Proof.
  intros [->| ->] H; [|done].
  destruct (openPortfolioModal item page) as [opened|] eqn:Ho; [|done].
  apply (scroll_lock_openPortfolioModal _ _ _ Ho H).
Qed.

(** X27.  Scrolling is suppressed exactly while the overlay is active: if that
    holds of the page, it holds after every event, and so after any
    sequence of clicks and key presses. *)
Theorem page_listeners_scroll_lock (events : list PageEvent) (page : Page) :
  scroll_lock_matches page →
  scroll_lock_matches (foldl (λ page e, page_listeners e page) page events).
Proof.
  revert page. induction events as [|e rest IH]; intros page H; [done|].
  simpl. apply IH. destruct e as [item|item key|key| |[]|e]; simpl.
  - apply (scroll_lock_default item); auto.
  - apply scroll_lock_document_keydown, (scroll_lock_default item); [|done].
    unfold item_keydown. destruct (_ || _); simpl; auto.
  - apply scroll_lock_document_keydown. done.
  - apply scroll_lock_closeModal.
  - apply scroll_lock_closeModal.
  - done.
  - done.
Qed.

Lemma page_listeners_scroll_lock_witness :
  scroll_lock_matches
    (foldl (λ page e, page_listeners e page) closed_page
       [ MoveFocus (PortfolioItem 0);
         KeydownItem {| portfolio_title := Some (js "Project One") |} (js "Enter");
         ClickModal false;
         ClickItem {| portfolio_title := Some (js "Project Two") |};
         Keydown (js "Escape") ]).
Proof.
  apply page_listeners_scroll_lock.
  split; [discriminate|]. intros H. inversion H.
Defined.

(** * Properties of navigation.js *)

(** ** The mobile menu *)

(** X28.  After a click on the toggle or on a link, the toggle's [aria-expanded]
    says whether the menu is open.  A click on the toggle opens a closed
    menu and closes an open one, a click on a link leaves the menu closed,
    and neither touches the menu's other classes. *)
Theorem nav_listener_aria (e : NavEvent) (nav nav' : Nav) (classes : gset jsstring) :
  nav_listener e nav = Some nav' →
  is_Some (navToggle nav) →
  navMenu nav = Some classes →
  ∃ classes' : gset jsstring,
    navMenu nav' = Some classes'
    ∧ navToggle nav'
      = Some (Some (js (if bool_decide (js "active" ∈ classes') then "true" else "false")))
    ∧ match e with
      | ClickToggle => js "active" ∈ classes' ↔ js "active" ∉ classes
      | ClickLink => js "active" ∉ classes'
      end
    ∧ ∀ c, c ≠ js "active" → c ∈ classes' ↔ c ∈ classes.
Proof.
  intros Hrun [aria Htoggle] Hmenu. destruct e; simpl in Hrun.
  - unfold navToggle_click in Hrun. rewrite Htoggle, Hmenu in Hrun.
    rewrite bool_decide_eq_false_2 in Hrun by done.
    cbn [mbind option_bind] in Hrun. injection Hrun as <-.
    eexists. split; [done|]. split; [done|].
    destruct (decide (js "active" ∈ classes)) as [Hin|Hout].
    + rewrite (bool_decide_eq_true_2 _ Hin). split.
      * split; [intros H; destruct (active_not_in_removed _ H) | done].
      * intros c Hc. rewrite elem_of_difference, elem_of_singleton. tauto.
    + rewrite (bool_decide_eq_false_2 _ Hout). split.
      * split; [done | intros _; apply active_in_added].
      * intros c Hc. rewrite elem_of_union, elem_of_singleton. tauto.
  - unfold navLink_click in Hrun. rewrite Htoggle, Hmenu in Hrun.
    cbn [mbind option_bind] in Hrun. injection Hrun as <-.
    eexists. split; [done|]. split; [|split].
    + rewrite bool_decide_eq_false_2 by apply active_not_in_removed. done.
    + apply active_not_in_removed.
    + intros c Hc. rewrite elem_of_difference, elem_of_singleton. tauto.
Qed.

Lemma nav_listener_aria_witness :
  ∃ classes' : gset jsstring,
    Some ({[ js "nav-menu"; js "active" ]} : gset jsstring) = Some classes'
    ∧ Some (Some (js "true"))
      = Some (Some (js (if bool_decide (js "active" ∈ classes') then "true" else "false")))
    ∧ (js "active" ∈ classes' ↔ js "active" ∉ ({[ js "nav-menu" ]} : gset jsstring))
    ∧ ∀ c, c ≠ js "active" → c ∈ classes' ↔ c ∈ ({[ js "nav-menu" ]} : gset jsstring).
Proof.
  apply (nav_listener_aria ClickToggle
           {| navToggle := Some (Some (js "false")); navMenu := Some {[ js "nav-menu" ]} |}
           {| navToggle := Some (Some (js "true"));
              navMenu := Some {[ js "nav-menu"; js "active" ]} |}).
  - vm_compute. reflexivity.
  - eexists. reflexivity.
  - reflexivity.
Defined.

(** ** The highlight of the section in view *)

Lemma active_links_remove_active navLinks : active_links (remove_active navLinks) = 0.
Proof.
  unfold active_links, remove_active.
  induction navLinks as [|classes rest IH]; [done|].
  rewrite fmap_cons, filter_cons_False; [done|].
  apply active_not_in_removed.
Qed.

Lemma active_links_add_active link navLinks :
  active_links navLinks = 0 → active_links (add_active link navLinks) ≤ 1.
Proof.
  destruct link as [i|]; simpl; [|lia].
  unfold active_links. revert i.
  induction navLinks as [|classes rest IH]; intros i Hzero; [simpl; lia|].
  rewrite filter_cons in Hzero.
  destruct (decide (js "active" ∈ classes)); [discriminate|].
  destruct i as [|i]; simpl.
  - rewrite filter_cons_True by apply active_in_added. simpl. lia.
  - rewrite filter_cons_False by done. apply IH, Hzero.
Qed.

Lemma active_links_highlight_section
    scrollPosition navbarHeight navLinks section navLinks' :
  highlight_section scrollPosition navbarHeight navLinks section = Some navLinks' →
  active_links navLinks ≤ 1 →
  active_links navLinks' ≤ 1.
Proof.
  unfold highlight_section. intros Hrun H. destruct (_ && _).
  - destruct (activeLink section); [|done]. injection Hrun as <-.
    apply active_links_add_active, active_links_remove_active.
  - injection Hrun as <-. done.
Qed.

(** X29.  [highlightActiveSection] keeps at most one link marked active: if at
    most one is when it is called, at most one is when it returns. *)
Theorem highlightActiveSection_at_most_one
    (scrollY : QArith_base.Q) (navbar : option Z) (sections : list NavSection)
    (homeLink : option nat) (navLinks navLinks' : list (gset jsstring)) :
  highlightActiveSection scrollY navbar sections homeLink navLinks = Some navLinks' →
  active_links navLinks ≤ 1 →
  active_links navLinks' ≤ 1.
Proof.
  unfold highlightActiveSection. intros Hrun Hone.
  destruct navbar as [navbarHeight|]; [|done]. cbn [mbind option_bind] in Hrun.
  destruct (forEach_section scrollY navbarHeight sections navLinks)
    as [looped|] eqn:Hloop; [|done].
  cbn [mbind option_bind] in Hrun.
  assert (active_links looped ≤ 1) as Hlooped.
  { clear Hrun. revert navLinks Hone Hloop.
    induction sections as [|section rest IH]; intros navLinks Hone Hloop.
    - injection Hloop as <-. done.
    - cbn [forEach_section] in Hloop.
      destruct (highlight_section scrollY navbarHeight navLinks section)
        as [next|] eqn:Hnext; [|done].
      cbn [mbind option_bind] in Hloop.
      apply (IH next); [|done].
      apply (active_links_highlight_section _ _ _ _ _ Hnext Hone). }
  destruct (negb _); injection Hrun as <-; [|done].
  apply active_links_add_active, active_links_remove_active.
Qed.

Lemma highlightActiveSection_at_most_one_witness :
  active_links [ ∅; {[ js "nav-link"; js "active" ]}; {[ js "nav-link" ]} ] ≤ 1.
Proof.
  apply (highlightActiveSection_at_most_one
           (QArith_base.inject_Z 650) (Some 60%Z)
           [ {| offsetTop := 0; offsetHeight := 600; activeLink := Answers (Some 0) |};
             {| offsetTop := 600; offsetHeight := 800; activeLink := Answers (Some 1) |};
             {| offsetTop := 1400; offsetHeight := 500; activeLink := Answers (Some 2) |} ]
           (Some 0)
           [ {[ js "active" ]}; {[ js "nav-link" ]}; {[ js "nav-link" ]} ]).
  - vm_compute. reflexivity.
  - vm_compute. lia.
Defined.

Lemma highlight_section_runs scrollPosition navbarHeight navLinks section :
  activeLink section ≠ SyntaxError →
  ∃ navLinks', highlight_section scrollPosition navbarHeight navLinks section
               = Some navLinks'
               ∧ length navLinks' = length navLinks.
Proof.
  intros Hquery. unfold highlight_section, add_active, remove_active.
  destruct (_ && _); [|eauto].
  destruct (activeLink section) as [[i|]|]; [| |done];
    eexists; (split; [done|]); rewrite ?length_alter, length_fmap; done.
Qed.

Lemma forEach_section_runs scrollPosition navbarHeight sections navLinks :
  (∀ section, section ∈ sections → activeLink section ≠ SyntaxError) →
  ∃ navLinks', forEach_section scrollPosition navbarHeight sections navLinks
               = Some navLinks'
               ∧ length navLinks' = length navLinks.
Proof.
  revert navLinks. induction sections as [|section rest IH]; intros navLinks Hqueries.
  - eauto.
  - destruct (highlight_section_runs scrollPosition navbarHeight navLinks section)
      as (next & Hnext & Hlen); [apply Hqueries; left|].
    destruct (IH next) as (navLinks' & Hrun & Hlen').
    { intros s Hs. apply Hqueries. right. done. }
    exists navLinks'. cbn [forEach_section]. rewrite Hnext. split; [done | congruence].
Qed.

(** X30.  At the top of the page (less than 100 pixels scrolled), and no
    section having an id that breaks the selector its link is looked up
    with, [highlightActiveSection] returns and leaves the home link, and no
    other link, marked active, whatever sections are in view and whatever
    was marked before. *)
Theorem highlightActiveSection_top
    (scrollY : QArith_base.Q) (navbarHeight : Z) (sections : list NavSection)
    (home : nat) (navLinks : list (gset jsstring)) :
  QArith_base.Qle_bool (QArith_base.inject_Z 100) scrollY = false →
  home < length navLinks →
  (∀ section, section ∈ sections → activeLink section ≠ SyntaxError) →
  ∃ navLinks' : list (gset jsstring),
    highlightActiveSection scrollY (Some navbarHeight) sections (Some home) navLinks
    = Some navLinks'
    ∧ is_Some (navLinks' !! home)
    ∧ ∀ i classes, navLinks' !! i = Some classes → (js "active" ∈ classes ↔ i = home).
Proof.
  intros Htop Hhome Hqueries. unfold highlightActiveSection. cbn [mbind option_bind].
  destruct (forEach_section_runs scrollY navbarHeight sections navLinks Hqueries)
    as (looped & -> & Hlen).
  cbn [mbind option_bind]. rewrite Htop. eexists. split; [done|].
  unfold add_active, remove_active. split.
  - apply lookup_lt_is_Some. rewrite length_alter, length_fmap, Hlen. done.
  - intros i classes Hi. destruct (decide (i = home)) as [->|Hne].
    + rewrite list_lookup_alter_eq, list_lookup_fmap in Hi.
      destruct (_ !! home); simpl in Hi; [|done]. injection Hi as <-.
      split; [done | intros _; apply active_in_added].
    + rewrite list_lookup_alter_ne, list_lookup_fmap in Hi by done.
      destruct (_ !! i); simpl in Hi; [|done]. injection Hi as <-.
      split; [intros H; destruct (active_not_in_removed _ H) | done].
Qed.

Lemma highlightActiveSection_top_witness :
  ∃ navLinks' : list (gset jsstring),
    highlightActiveSection (QArith_base.Qmake 25 2) (Some 60%Z)
      [ {| offsetTop := 0; offsetHeight := 600; activeLink := Answers (Some 0) |};
        {| offsetTop := 600; offsetHeight := 800; activeLink := Answers (Some 1) |} ]
      (Some 0) [ ∅; {[ js "active" ]} ]
    = Some navLinks'
    ∧ is_Some (navLinks' !! 0)
    ∧ ∀ i classes, navLinks' !! i = Some classes → (js "active" ∈ classes ↔ i = 0).
Proof.
  apply (highlightActiveSection_top (QArith_base.Qmake 25 2) 60
           [ {| offsetTop := 0; offsetHeight := 600; activeLink := Answers (Some 0) |};
             {| offsetTop := 600; offsetHeight := 800; activeLink := Answers (Some 1) |} ]
           0 [ ∅; {[ js "active" ]} ]).
  - reflexivity.
  - simpl. lia.
  - intros section Hs.
    repeat (apply elem_of_cons in Hs as [->|Hs]; [discriminate|]).
    inversion Hs.
Defined.

(** A section in view whose id breaks the selector: the query throws, and
    the rule for the top of the page is not reached. *)
Example highlightActiveSection_throws :
  highlightActiveSection (QArith_base.inject_Z 0) (Some 60%Z)
    [ {| offsetTop := 0; offsetHeight := 600; activeLink := SyntaxError |} ]
    (Some 0) [ {[ js "active" ]} ]
  = None.
Proof. reflexivity. Qed.
